(** * PII detection and redaction: a shallow embedding of
      [detector_full_candidate_name.py] and the properties of its rule engine.

    Python [str] values are modelled as lists of ASCII characters, so the
    character classes [\d], [\w], [\b], [str.lower] and whitespace are the
    ASCII ones.  A decoded JSON value is a string, an integer or null;
    floating-point numbers, booleans and nested arrays and objects are outside
    the model.  A [dict] is an association list whose keys are pairwise
    distinct ([wf_record]); the list order is the dict's insertion order.
    Code that can raise returns a [result].

    The file has three parts: the program, the definitions the statements
    use, and the lemmas and theorems. *)

From Stdlib Require Import Ascii String DecimalString.
From Stdlib Require Import List Bool Arith ZArith Lia Permutation.
Import ListNotations.
Open Scope string_scope.
Open Scope nat_scope.
Open Scope list_scope.

(* ================================================================== *)
(** ** Text *)

Definition text := list ascii.

Coercion list_ascii_of_string : string >-> list.

Definition text_eqb (a b : text) : bool :=
  if list_eq_dec ascii_dec a b then true else false.

(** [x in S] for a set literal [S] of strings. *)
Definition mem (x : text) (s : list text) : bool := existsb (text_eqb x) s.

(** *** Character classes *)

Definition in_range (lo hi c : ascii) : bool :=
  (nat_of_ascii lo <=? nat_of_ascii c) && (nat_of_ascii c <=? nat_of_ascii hi).

Definition is_digit (c : ascii) : bool := in_range "0" "9" c.
Definition is_upper (c : ascii) : bool := in_range "A" "Z" c.
Definition is_lower (c : ascii) : bool := in_range "a" "z" c.
Definition is_alpha (c : ascii) : bool := is_upper c || is_lower c.
Definition is_alnum (c : ascii) : bool := is_alpha c || is_digit c.

(** [\w] *)
Definition is_word (c : ascii) : bool := is_alnum c || Ascii.eqb c "_".

(** [str.isspace] on ASCII: TAB, LF, VT, FF, CR, FS, GS, RS, US and space. *)
Definition is_space (c : ascii) : bool :=
  let n := nat_of_ascii c in
  ((9 <=? n) && (n <=? 13)) || ((28 <=? n) && (n <=? 32)).

Definition one_of (cs : text) (c : ascii) : bool := existsb (Ascii.eqb c) cs.

(** *** [str.lower] *)

Definition lower_char (c : ascii) : ascii :=
  if is_upper c then ascii_of_nat (nat_of_ascii c + 32) else c.

Definition lower (s : text) : text := map lower_char s.

(** *** Slices *)

(** [s[-n:]] for [n > 0]. *)
Definition last_n (n : nat) (s : text) : text := skipn (length s - n) s.

(** ["X" * n] *)
Definition xs (n : nat) : text := repeat "X"%char n.

(** [old] is a prefix of [s]. *)
Fixpoint starts_with (old s : text) : bool :=
  match old, s with
  | [], _ => true
  | _ :: _, [] => false
  | a :: old', b :: s' => Ascii.eqb a b && starts_with old' s'
  end.

(** [s.replace(old, new)]: every non-overlapping occurrence of [old], left to
    right.  [skip] counts the characters of a replaced occurrence still to be
    dropped. *)
Fixpoint replace_from (old new : text) (skip : nat) (s : text) : text :=
  match s with
  | [] => []
  | c :: t =>
      match skip with
      | S k => replace_from old new k t
      | O =>
          if starts_with old s
          then new ++ replace_from old new (length old - 1) t
          else c :: replace_from old new 0 t
      end
  end.

Definition replace (s old new : text) : text :=
  match old with
  | [] => new ++ flat_map (fun c => c :: new) s
  | _ :: _ => replace_from old new 0 s
  end.

(** [s.split(sep)] for a one-character separator: all the pieces. *)
Fixpoint split_on (sep : ascii) (s : text) : list text :=
  match s with
  | [] => [[]]
  | c :: t =>
      if Ascii.eqb c sep then [] :: split_on sep t
      else match split_on sep t with
           | [] => [[c]]
           | p :: ps => (c :: p) :: ps
           end
  end.

(** [s.split(sep, 1)] when [sep in s]: the text before the first separator
    and the text after it; [None] when the separator does not occur. *)
Fixpoint split_once (sep : ascii) (s : text) : option (text * text) :=
  match s with
  | [] => None
  | c :: t =>
      if Ascii.eqb c sep then Some ([], t)
      else match split_once sep t with
           | Some (a, b) => Some (c :: a, b)
           | None => None
           end
  end.

(** [s.split()]: the maximal runs of non-whitespace characters.  [cur] is the
    run being read, reversed. *)
Fixpoint split_ws_from (cur : text) (s : text) : list text :=
  match s with
  | [] => match cur with [] => [] | _ => [rev cur] end
  | c :: t =>
      if is_space c
      then match cur with
           | [] => split_ws_from [] t
           | _ => rev cur :: split_ws_from [] t
           end
      else split_ws_from (c :: cur) t
  end.

Definition split_ws (s : text) : list text := split_ws_from [] s.

(** [sep.join(parts)] *)
Fixpoint join (sep : text) (parts : list text) : text :=
  match parts with
  | [] => []
  | [p] => p
  | p :: ps => p ++ sep ++ join sep ps
  end.

(** [s.strip()] *)
Fixpoint lstrip (s : text) : text :=
  match s with
  | [] => []
  | c :: t => if is_space c then lstrip t else s
  end.

Definition strip (s : text) : text := rev (lstrip (rev (lstrip s))).

(* ================================================================== *)
(** ** The regular expressions of the pattern library

    Every pattern of the source is a sequence of greedy bounded repetitions
    of a character class, with word-boundary assertions in between.  The
    matcher is the backtracking matcher of [re]: a repetition first takes as
    many characters as it can and gives them back one at a time. *)

Inductive item : Type :=
| Bnd : item                                          (* \b *)
| Rep : (ascii -> bool) -> nat -> option nat -> item. (* [class]{lo,hi} *)

Definition regex := list item.

(** Length of the longest prefix of [s] in class [p], at most [hi]. *)
Fixpoint run_length (p : ascii -> bool) (hi : option nat) (s : text) : nat :=
  match hi with
  | Some O => 0
  | _ =>
      match s with
      | [] => 0
      | c :: t =>
          if p c then S (run_length p (option_map Nat.pred hi) t) else 0
      end
  end.

Definition word_opt (c : option ascii) : bool :=
  match c with Some c => is_word c | None => false end.

(** [\b] holds between [prev] and the head of [s]. *)
Definition at_boundary (prev : option ascii) (s : text) : bool :=
  xorb (word_opt prev) (word_opt (hd_error s)).

(** The character before position [k] of [s], where [prev] precedes [s]. *)
Definition prev_at (prev : option ascii) (s : text) (k : nat) : option ascii :=
  match k with
  | O => prev
  | S k' => nth_error s k'
  end.

(** Try the counts [k], [k-1], ..., [lo]; [f j] matches the rest of the
    pattern after [j] characters. *)
Fixpoint try_down (f : nat -> option nat) (lo k : nat) : option nat :=
  if k <? lo then None
  else match f k with
       | Some n => Some (k + n)
       | None =>
           match k with
           | O => None
           | S k' => try_down f lo k'
           end
       end.

(** Match [re] at the start of [s]; the result is the length of the match. *)
Fixpoint match_here (re : regex) (prev : option ascii) (s : text) : option nat :=
  match re with
  | [] => Some 0
  | Bnd :: re' => if at_boundary prev s then match_here re' prev s else None
  | Rep p lo hi :: re' =>
      try_down (fun k => match_here re' (prev_at prev s k) (skipn k s))
               lo (run_length p hi s)
  end.

(** [re.search]: the match at the leftmost position that has one, as
    (start index, matched text). *)
Fixpoint search_from (re : regex) (i : nat) (prev : option ascii) (s : text)
  : option (nat * text) :=
  match match_here re prev s with
  | Some n => Some (i, firstn n s)
  | None =>
      match s with
      | [] => None
      | c :: t => search_from re (S i) (Some c) t
      end
  end.

Definition search (re : regex) (s : text) : option (nat * text) :=
  search_from re 0 None s.

(** [match_obj.group(0)] *)
Definition group0 (re : regex) (s : text) : option text :=
  option_map snd (search re s).

(** The truth value of [pattern.search(s)]. *)
Definition found (re : regex) (s : text) : bool :=
  match search re s with Some _ => true | None => false end.

(** [re.findall(r"[A-Za-z]+", s)]: the maximal alphabetic runs. *)
Fixpoint findall_alpha_from (cur : text) (s : text) : list text :=
  match s with
  | [] => match cur with [] => [] | _ => [rev cur] end
  | c :: t =>
      if is_alpha c then findall_alpha_from (c :: cur) t
      else match cur with
           | [] => findall_alpha_from [] t
           | _ => rev cur :: findall_alpha_from [] t
           end
  end.

Definition findall_alpha (s : text) : list text := findall_alpha_from [] s.

Definition exactly (p : ascii -> bool) (n : nat) : item := Rep p n (Some n).
Definition at_least (p : ascii -> bool) (n : nat) : item := Rep p n None.
Definition lit (c : ascii) : item := exactly (Ascii.eqb c) 1.

(** [[A-Za-z0-9._%+-]+@[A-Za-z0-9.-]+\.[A-Za-z]{2,}] *)
Definition email_pattern : regex :=
  [ at_least (fun c => is_alnum c || one_of "._%+-" c) 1;
    lit "@";
    at_least (fun c => is_alnum c || one_of ".-" c) 1;
    lit ".";
    at_least is_alpha 2 ].

(** [\b[a-zA-Z0-9._-]{2,}@[a-zA-Z]{2,}\b] *)
Definition upi_pattern : regex :=
  [ Bnd;
    at_least (fun c => is_alnum c || one_of "._-" c) 2;
    lit "@";
    at_least is_alpha 2;
    Bnd ].

(** [\b[A-Z][0-9]{7}\b] *)
Definition passport_pattern : regex :=
  [ Bnd; exactly is_upper 1; exactly is_digit 7; Bnd ].

(** [\b\d{10}\b], [\b\d{12}\b], [\b\d{6}\b] *)
Definition decimal_ten_pattern : regex := [ Bnd; exactly is_digit 10; Bnd ].
Definition decimal_twelve_pattern : regex := [ Bnd; exactly is_digit 12; Bnd ].
Definition postal_code_pattern : regex := [ Bnd; exactly is_digit 6; Bnd ].

(** The inline patterns [\d{10}] and [\d{12}] of the masking functions and of
    the unconditional pass. *)
Definition digits (n : nat) : regex := [ exactly is_digit n ].

(* ================================================================== *)
(** ** Field identifiers *)

Definition PHONE_RELATED_FIELDS : list text :=
  ["phone" : text; "contact" : text; "alt_phone" : text; "mobile" : text].
Definition AADHAAR_RELATED_FIELDS : list text :=
  ["aadhar" : text; "aadhaar" : text].
Definition PASSPORT_RELATED_FIELDS : list text := ["passport" : text].
Definition UPI_RELATED_FIELDS : list text := ["upi" : text; "upi_id" : text].
Definition EMAIL_RELATED_FIELDS : list text :=
  ["email" : text; "alt_email" : text; "username" : text].
Definition FULL_NAME_FIELDS : list text := ["name" : text].
Definition GIVEN_NAME_FIELD : text := "first_name".
Definition SURNAME_FIELD : text := "last_name".
Definition LOCATION_FIELDS : list text := ["address" : text].
Definition NETWORK_IP_FIELDS : list text := ["ip" : text; "ip_address" : text].
Definition HARDWARE_ID_FIELDS : list text := ["device_id" : text].

Definition REDACTED_PII : text := "[REDACTED_PII]".

(* ================================================================== *)
(** ** Masking functions *)

Definition obfuscate_phone_number (value_str : text) : text :=
  match group0 (digits 10) value_str with
  | None => value_str
  | Some matched_sequence =>
      replace value_str matched_sequence
        (firstn 2 matched_sequence ++ "XXXXXX" ++ last_n 2 matched_sequence)
  end.

Definition obfuscate_aadhaar_number (value_str : text) : text :=
  match group0 (digits 12) value_str with
  | None => value_str
  | Some matched_sequence =>
      replace value_str matched_sequence
        (firstn 4 matched_sequence ++ "XXXX" ++ last_n 4 matched_sequence)
  end.

(** [matched_sequence[0]] is [firstn 1]: a match has 8 characters. *)
Definition obfuscate_passport_number (value_str : text) : text :=
  match group0 passport_pattern value_str with
  | None => value_str
  | Some matched_sequence =>
      replace value_str matched_sequence (firstn 1 matched_sequence ++ "XXXXXXX")
  end.

Definition obfuscate_upi_identifier (value_str : text) : text :=
  match split_once "@" value_str with
  | None => REDACTED_PII
  | Some (username_part, domain_part) =>
      let masked_username :=
        if length username_part <=? 2 then ("XX" : text)
        else firstn 2 username_part ++ "XXX" in
      masked_username ++ "@" ++ domain_part
  end.

Definition obfuscate_email_address (value_str : text) : text :=
  match split_once "@" value_str with
  | None => value_str
  | Some (local_part, domain_part) =>
      let masked_local :=
        if length local_part <=? 2 then ("XX" : text)
        else firstn 2 local_part ++ "XXX" in
      masked_local ++ "@" ++ domain_part
  end.

(** The tokens of [split()] are not empty, so [token[0]] is [firstn 1]. *)
Definition obfuscate_personal_name (value_str : text) : text :=
  let word_tokens := split_ws value_str in
  join " " (map (fun token => firstn 1 token ++ xs (length token - 1)) word_tokens).

Definition obfuscate_physical_address (value_str : text) : text :=
  let postal_code := group0 postal_code_pattern value_str in
  let address_prefix : text :=
    if 3 <=? length value_str then firstn 3 value_str ++ "XXX" else "XXX" in
  let postal_suffix : text :=
    match postal_code with
    | Some (c :: code) => ", " ++ c :: code
    | _ => []
    end in
  address_prefix ++ "..." ++ postal_suffix.

(** The unpacking of [split(".")] into four names raises unless there are
    exactly four pieces; the handler returns the sentinel. *)
Definition obfuscate_ip_address (value_str : text) : text :=
  match split_on "." value_str with
  | [octet_a; _; _; octet_d] => octet_a ++ ".XXX.XXX." ++ octet_d
  | _ => REDACTED_PII
  end.

Definition obfuscate_device_identifier (value_str : text) : text :=
  if length value_str <=? 6 then "XXXXXX"
  else firstn 3 value_str ++ "XXX" ++ last_n 3 value_str.

Definition appears_as_complete_name (value_str : text) : bool :=
  2 <=? length (findall_alpha value_str).

(* ================================================================== *)
(** ** Records *)

(** A decoded JSON value: text, an integer, or null. *)
Inductive value : Type :=
| VStr : text -> value
| VInt : Z -> value
| VNull : value.

(** [str(v)] *)
Definition str (v : value) : text :=
  match v with
  | VStr s => s
  | VInt z => NilZero.string_of_int (Z.to_int z)
  | VNull => "None"
  end.

(** The truth value of [v] in a condition. *)
Definition truthy (v : value) : bool :=
  match v with
  | VStr [] => false
  | VStr (_ :: _) => true
  | VInt z => negb (Z.eqb z 0)
  | VNull => false
  end.

Definition record := list (text * value).

Definition keys (r : record) : list text := map fst r.

(** A dict has no two entries with one key. *)
Definition wf_record (r : record) : Prop := NoDup (keys r).

(** [r.get(k)] *)
Fixpoint get (k : text) (r : record) : option value :=
  match r with
  | [] => None
  | (k', v) :: r' => if text_eqb k k' then Some v else get k r'
  end.

(** [k in r] *)
Definition contains (k : text) (r : record) : bool :=
  match get k r with Some _ => true | None => false end.

(** [r[k] = v]: an existing key keeps its place, a new key goes last. *)
Fixpoint set (k : text) (v : value) (r : record) : record :=
  match r with
  | [] => [(k, v)]
  | (k', v') :: r' =>
      if text_eqb k k' then (k', v) :: r' else (k', v') :: set k v r'
  end.

(** [k in r and r[k]] *)
Definition present (k : text) (r : record) : bool :=
  match get k r with Some v => truthy v | None => false end.

(** [str(r.get(k, ""))] *)
Definition get_text (k : text) (r : record) : text :=
  match get k r with Some v => str v | None => [] end.

Definition nonempty (s : text) : bool :=
  match s with [] => false | _ :: _ => true end.

(* ================================================================== *)
(** ** Detection *)

Definition contains_complete_address (record_data : record) : bool :=
  let address_content :=
    fold_left
      (fun acc field_name =>
         match get field_name record_data with
         | Some v => if truthy v then acc ++ str v ++ " " else acc
         | None => acc
         end)
      LOCATION_FIELDS ([] : text) in
  let city_value := strip (get_text "city" record_data) in
  let state_value := strip (get_text "state" record_data) in
  let postal_value := strip (get_text "pin_code" record_data) in
  nonempty address_content
  && (nonempty city_value || nonempty state_value || nonempty postal_value
      || found postal_code_pattern address_content).

(** One loop of the standalone detector: some field whose lowercased name is
    in [fields] has a value in which [pattern] is found.  The loop visits the
    fields of the dict in order and reads each one's value. *)
Definition any_field (fields : list text) (pattern : regex) (record_data : record)
  : bool :=
  existsb
    (fun entry =>
       mem (lower (fst entry)) fields && found pattern (str (snd entry)))
    record_data.

Definition contains_individual_pii (record_data : record) : bool :=
  any_field PHONE_RELATED_FIELDS decimal_ten_pattern record_data
  || any_field AADHAAR_RELATED_FIELDS decimal_twelve_pattern record_data
  || any_field PASSPORT_RELATED_FIELDS passport_pattern record_data
  || any_field UPI_RELATED_FIELDS upi_pattern record_data.

(** The five signals of the combinatorial scorer. *)
Definition has_complete_name (record_data : record) : bool :=
  (existsb (fun field_name => present field_name record_data) FULL_NAME_FIELDS
   && match
        flat_map
          (fun field_name =>
             match get field_name record_data with
             | Some v => [v]
             | None => []
             end)
          FULL_NAME_FIELDS
      with
      | v :: _ => appears_as_complete_name (str v)
      | [] => false
      end)
  || (contains GIVEN_NAME_FIELD record_data
      && contains SURNAME_FIELD record_data
      && present GIVEN_NAME_FIELD record_data
      && present SURNAME_FIELD record_data).

Definition has_email_address (record_data : record) : bool :=
  existsb
    (fun field_name =>
       match get field_name record_data with
       | Some v => truthy v && found email_pattern (str v)
       | None => false
       end)
    EMAIL_RELATED_FIELDS.

Definition has_device_id (record_data : record) : bool :=
  existsb (fun field_name => present field_name record_data) HARDWARE_ID_FIELDS.

Definition has_user_context (record_data : record) : bool :=
  has_complete_name record_data
  || has_email_address record_data
  || existsb (fun field_name => contains field_name record_data)
       PHONE_RELATED_FIELDS.

Definition has_ip_address (record_data : record) : bool :=
  existsb (fun field_name => present field_name record_data) NETWORK_IP_FIELDS.

Definition count_if (b : bool) (element_count : nat) : nat :=
  if b then element_count + 1 else element_count.

Definition count_combinatorial_elements (record_data : record) : nat :=
  let element_count := 0 in
  let element_count := count_if (has_complete_name record_data) element_count in
  let element_count := count_if (has_email_address record_data) element_count in
  let element_count :=
    count_if (contains_complete_address record_data) element_count in
  let element_count :=
    count_if (has_device_id record_data && has_user_context record_data)
      element_count in
  let element_count :=
    count_if (has_ip_address record_data && has_user_context record_data)
      element_count in
  element_count.

(** The verdict of [execute_processing]. *)
Definition is_sensitive_record (parsed_data : record) : bool :=
  contains_individual_pii parsed_data
  || (2 <=? count_combinatorial_elements parsed_data).

(* ================================================================== *)
(** ** Redaction *)

(** The exceptions a dict lookup or a subscript can raise. *)
Inductive exn : Type := KeyError | TypeError | IndexError.

Inductive result (A : Type) : Type :=
| Ok : A -> result A
| Raise : exn -> result A.

Arguments Ok {A} _.
Arguments Raise {A} _.

Definition bind {A B : Type} (m : result A) (f : A -> result B) : result B :=
  match m with
  | Ok a => f a
  | Raise e => Raise e
  end.

Notation "x <- m ;; k" := (bind m (fun x => k))
  (at level 61, m at next level, right associativity).

(** [r[k]] *)
Definition getitem (k : text) (r : record) : result value :=
  match get k r with
  | Some v => Ok v
  | None => Raise KeyError
  end.

(** [v[0]]: the first character of a string; a number and null are not
    subscriptable. *)
Definition index0 (v : value) : result text :=
  match v with
  | VStr (c :: _) => Ok [c]
  | VStr [] => Raise IndexError
  | VInt _ => Raise TypeError
  | VNull => Raise TypeError
  end.

(** The body of the first loop of [apply_redaction_rules], for one key. *)
Definition redact_standalone (redacted_record : record) (field_key : text)
  : result record :=
  field_value <- getitem field_key redacted_record ;;
  match field_value with
  | VNull => Ok redacted_record
  | _ =>
      let value_string := str field_value in
      let field_key_lower := lower field_key in
      let redacted_record :=
        if mem field_key_lower PHONE_RELATED_FIELDS
           && found (digits 10) value_string
        then set field_key (VStr (obfuscate_phone_number value_string))
               redacted_record
        else redacted_record in
      let redacted_record :=
        if mem field_key_lower AADHAAR_RELATED_FIELDS
           && found (digits 12) value_string
        then set field_key (VStr (obfuscate_aadhaar_number value_string))
               redacted_record
        else redacted_record in
      let redacted_record :=
        if mem field_key_lower PASSPORT_RELATED_FIELDS
           && found passport_pattern value_string
        then set field_key (VStr (obfuscate_passport_number value_string))
               redacted_record
        else redacted_record in
      let redacted_record :=
        if mem field_key_lower UPI_RELATED_FIELDS
           && found upi_pattern value_string
        then set field_key (VStr (obfuscate_upi_identifier value_string))
               redacted_record
        else redacted_record in
      Ok redacted_record
  end.

(** [for field_key in ks: ...] with a body that can raise. *)
Fixpoint for_each (body : record -> text -> result record) (ks : list text)
  (redacted_record : record) : result record :=
  match ks with
  | [] => Ok redacted_record
  | k :: ks' =>
      redacted_record' <- body redacted_record k ;;
      for_each body ks' redacted_record'
  end.

(** The unconditional pass: the loop over a snapshot of the keys. *)
Definition unconditional_pass (redacted_record : record) : result record :=
  for_each redact_standalone (keys redacted_record) redacted_record.

Definition redact_email (redacted_record : record) (field_name : text) : record :=
  match get field_name redacted_record with
  | Some v =>
      if truthy v then
        let string_val := str v in
        if found email_pattern string_val
        then set field_name (VStr (obfuscate_email_address string_val))
               redacted_record
        else redacted_record
      else redacted_record
  | None => redacted_record
  end.

Definition redact_full_name (redacted_record : record) (field_name : text)
  : record :=
  match get field_name redacted_record with
  | Some v =>
      if truthy v && appears_as_complete_name (str v)
      then set field_name (VStr (obfuscate_personal_name (str v)))
             redacted_record
      else redacted_record
  | None => redacted_record
  end.

(** [r[k] = r[k][0] + "X" * (len(str(r[k])) - 1)] *)
Definition mask_initial (k : text) (redacted_record : record) : result record :=
  v <- getitem k redacted_record ;;
  initial <- index0 v ;;
  Ok (set k (VStr (initial ++ xs (length (str v) - 1))) redacted_record).

Definition redact_name_pair (redacted_record : record) : result record :=
  if contains GIVEN_NAME_FIELD redacted_record
     && contains SURNAME_FIELD redacted_record
     && present GIVEN_NAME_FIELD redacted_record
     && present SURNAME_FIELD redacted_record
  then
    redacted_record <- mask_initial GIVEN_NAME_FIELD redacted_record ;;
    mask_initial SURNAME_FIELD redacted_record
  else Ok redacted_record.

(** The loops over the address, network-address and device-id fields: a
    present, truthy field is replaced by [mask] of its text. *)
Definition redact_with (mask : text -> text) (redacted_record : record)
  (field_name : text) : record :=
  match get field_name redacted_record with
  | Some v =>
      if truthy v then set field_name (VStr (mask (str v))) redacted_record
      else redacted_record
  | None => redacted_record
  end.

(** The conditional pass: the body of the [if] on the verdict and the score. *)
Definition conditional_pass (redacted_record : record) : result record :=
  let redacted_record :=
    fold_left redact_email EMAIL_RELATED_FIELDS redacted_record in
  let redacted_record :=
    fold_left redact_full_name FULL_NAME_FIELDS redacted_record in
  redacted_record <- redact_name_pair redacted_record ;;
  let redacted_record :=
    fold_left (redact_with obfuscate_physical_address) LOCATION_FIELDS
      redacted_record in
  let redacted_record :=
    fold_left (redact_with obfuscate_ip_address) NETWORK_IP_FIELDS
      redacted_record in
  let redacted_record :=
    fold_left (redact_with obfuscate_device_identifier) HARDWARE_ID_FIELDS
      redacted_record in
  Ok redacted_record.

Definition apply_redaction_rules (record_data : record) (is_sensitive_data : bool)
  : result record :=
  let redacted_record := record_data in
  redacted_record <- unconditional_pass redacted_record ;;
  if is_sensitive_data && (2 <=? count_combinatorial_elements record_data)
  then conditional_pass redacted_record
  else Ok redacted_record.

(** One decoded row of [execute_processing]: the verdict, then the redaction
    under that verdict. *)
Definition process_record (parsed_data : record) : result (record * bool) :=
  let is_sensitive := is_sensitive_record parsed_data in
  redacted_data <- apply_redaction_rules parsed_data is_sensitive ;;
  Ok (redacted_data, is_sensitive).

(* ================================================================== *)
(** ** What the engine does, field by field: definitions for the statements *)

(** The record with every value [v] under key [k] replaced by [g k v]; the
    keys and their order stay. *)
Definition entrywise (g : text -> value -> value) (r : record) : record :=
  map (fun e => (fst e, g (fst e) (snd e))) r.

(** The value [x] at key [f], every other value unchanged. *)
Definition put_at (f : text) (x : value) (k : text) (v : value) : value :=
  if text_eqb k f then x else v.

(** What the body of the first loop leaves under [field_key] when it found
    [field_value] there: the four tests read the original text, and a later
    assignment overwrites an earlier one. *)
Definition standalone_mask (field_key : text) (field_value : value) : value :=
  match field_value with
  | VNull => VNull
  | _ =>
      let value_string := str field_value in
      let field_key_lower := lower field_key in
      let v :=
        if mem field_key_lower PHONE_RELATED_FIELDS
           && found (digits 10) value_string
        then VStr (obfuscate_phone_number value_string) else field_value in
      let v :=
        if mem field_key_lower AADHAAR_RELATED_FIELDS
           && found (digits 12) value_string
        then VStr (obfuscate_aadhaar_number value_string) else v in
      let v :=
        if mem field_key_lower PASSPORT_RELATED_FIELDS
           && found passport_pattern value_string
        then VStr (obfuscate_passport_number value_string) else v in
      let v :=
        if mem field_key_lower UPI_RELATED_FIELDS
           && found upi_pattern value_string
        then VStr (obfuscate_upi_identifier value_string) else v in
      v
  end.

(** [upd] applied to the value under [f], every other value unchanged. *)
Definition update_at (f : text) (upd : value -> value) (k : text) (v : value)
  : value :=
  if text_eqb k f then upd v else v.

(** What each loop of the conditional pass does to the value it finds. *)
Definition email_upd (v : value) : value :=
  if truthy v && found email_pattern (str v)
  then VStr (obfuscate_email_address (str v)) else v.

Definition full_name_upd (v : value) : value :=
  if truthy v && appears_as_complete_name (str v)
  then VStr (obfuscate_personal_name (str v)) else v.

Definition truthy_upd (mask : text -> text) (v : value) : value :=
  if truthy v then VStr (mask (str v)) else v.

(** The given-name and surname assignment on a string: the first character,
    then one [X] for every other character. *)
Definition initial_mask (v : value) : value :=
  match v with
  | VStr (c :: t) => VStr (c :: xs (length t))
  | _ => v
  end.

(** The given-name and surname fields are both present and truthy. *)
Definition pair_present (r : record) : bool :=
  present GIVEN_NAME_FIELD r && present SURNAME_FIELD r.

(** Both hold text. *)
Definition pair_is_text (r : record) : bool :=
  match get GIVEN_NAME_FIELD r, get SURNAME_FIELD r with
  | Some (VStr _), Some (VStr _) => true
  | _, _ => false
  end.

(** What the conditional pass leaves under [k] when it found [v] there;
    [pair] tells whether the given-name and surname fields are both present
    and truthy. *)
Definition quasi_mask (pair : bool) (k : text) (v : value) : value :=
  if mem k EMAIL_RELATED_FIELDS then email_upd v
  else if mem k FULL_NAME_FIELDS then full_name_upd v
  else if text_eqb k GIVEN_NAME_FIELD || text_eqb k SURNAME_FIELD
       then (if pair then initial_mask v else v)
  else if mem k LOCATION_FIELDS then truthy_upd obfuscate_physical_address v
  else if mem k NETWORK_IP_FIELDS then truthy_upd obfuscate_ip_address v
  else if mem k HARDWARE_ID_FIELDS
       then truthy_upd obfuscate_device_identifier v
  else v.

(** The field names the conditional pass assigns to. *)
Definition quasi_fields : list text :=
  EMAIL_RELATED_FIELDS ++ FULL_NAME_FIELDS
  ++ [GIVEN_NAME_FIELD; SURNAME_FIELD]
  ++ LOCATION_FIELDS ++ NETWORK_IP_FIELDS ++ HARDWARE_ID_FIELDS.

(** The field names the unconditional pass recognizes, lowercased. *)
Definition standalone_fields : list text :=
  PHONE_RELATED_FIELDS ++ AADHAAR_RELATED_FIELDS
  ++ PASSPORT_RELATED_FIELDS ++ UPI_RELATED_FIELDS.

(** The assignment to the name pair: [initial_mask] when the pair is there. *)
Definition pair_upd (pair : bool) (v : value) : value :=
  if pair then initial_mask v else v.

(** The name pair is present with a number in it: the input on which
    [apply_redaction_rules] raises once the conditional pass runs. *)
Definition pair_not_text (r : record) : bool :=
  pair_present r && negb (pair_is_text r).

(** The value [apply_redaction_rules r b] leaves under [k] where [r] has
    [v]. *)
Definition redacted_value (r : record) (b : bool) (k : text) (v : value)
  : value :=
  if b && (2 <=? count_combinatorial_elements r)
  then quasi_mask (pair_present r) k (standalone_mask k v)
  else standalone_mask k v.

(** The match of [re] at position [j] of [s]. *)
Definition match_at (re : regex) (s : text) (j : nat) : option nat :=
  match_here re (prev_at None s j) (skipn j s).

(** The names of [ks] are pairwise distinct. *)
Fixpoint distinct (ks : list text) : bool :=
  match ks with
  | [] => true
  | k :: ks' => negb (mem k ks') && distinct ks'
  end.

(** The categories of standalone identifiers. *)
Inductive category : Type := PHONE | NATIONAL_ID | PASSPORT | PAYMENT_HANDLE.

(** The field names of a category, its detector pattern, the test of the
    unconditional pass and its masking function. *)
Definition category_fields (c : category) : list text :=
  match c with
  | PHONE => PHONE_RELATED_FIELDS
  | NATIONAL_ID => AADHAAR_RELATED_FIELDS
  | PASSPORT => PASSPORT_RELATED_FIELDS
  | PAYMENT_HANDLE => UPI_RELATED_FIELDS
  end.

(** The pattern of the pattern library, as the standalone detector uses it. *)
Definition category_pattern (c : category) : regex :=
  match c with
  | PHONE => decimal_ten_pattern
  | NATIONAL_ID => decimal_twelve_pattern
  | PASSPORT => passport_pattern
  | PAYMENT_HANDLE => upi_pattern
  end.

(** The pattern the unconditional pass tests before it masks. *)
Definition category_trigger (c : category) : regex :=
  match c with
  | PHONE => digits 10
  | NATIONAL_ID => digits 12
  | PASSPORT => passport_pattern
  | PAYMENT_HANDLE => upi_pattern
  end.

Definition category_mask (c : category) : text -> text :=
  match c with
  | PHONE => obfuscate_phone_number
  | NATIONAL_ID => obfuscate_aadhaar_number
  | PASSPORT => obfuscate_passport_number
  | PAYMENT_HANDLE => obfuscate_upi_identifier
  end.

(** The local-part rule shared by the payment-handle and email masks. *)
Definition masked_local (local_part : text) : text :=
  if length local_part <=? 2 then "XX" else firstn 2 local_part ++ "XXX".

(** The field names of the taxonomy, all categories together. *)
Definition taxonomy : list text := standalone_fields ++ quasi_fields.

(** A field name is recognized when its lowercased spelling is in the
    taxonomy. *)
Definition recognized (k : text) : bool := mem (lower k) taxonomy.

(** The unconditional pass assigns to the field [k] holding [v]. *)
Definition selected_unconditional (k : text) (v : value) : bool :=
  match v with
  | VNull => false
  | _ =>
      (mem (lower k) PHONE_RELATED_FIELDS && found (digits 10) (str v))
      || (mem (lower k) AADHAAR_RELATED_FIELDS && found (digits 12) (str v))
      || (mem (lower k) PASSPORT_RELATED_FIELDS
          && found passport_pattern (str v))
      || (mem (lower k) UPI_RELATED_FIELDS && found upi_pattern (str v))
  end.

(** The conditional pass, when it runs on [r], assigns to the field [k]
    holding [v]. *)
Definition selected_conditional (r : record) (k : text) (v : value) : bool :=
  (mem k EMAIL_RELATED_FIELDS && truthy v && found email_pattern (str v))
  || (mem k FULL_NAME_FIELDS && truthy v && appears_as_complete_name (str v))
  || ((text_eqb k GIVEN_NAME_FIELD || text_eqb k SURNAME_FIELD)
      && pair_present r)
  || (mem k (LOCATION_FIELDS ++ NETWORK_IP_FIELDS ++ HARDWARE_ID_FIELDS)
      && truthy v).

(** One of the two passes of [apply_redaction_rules r b] assigns to the field
    [k] holding [v]. *)
Definition selected (r : record) (b : bool) (k : text) (v : value) : bool :=
  selected_unconditional k v
  || (b && (2 <=? count_combinatorial_elements r) && selected_conditional r k v).

(** The same field up to the case of its name. *)
Definition same_up_to_case (e1 e2 : text * value) : Prop :=
  lower (fst e1) = lower (fst e2) /\ snd e1 = snd e2.

(** The names the combinatorial scorer looks up. *)
Definition scorer_fields : list text :=
  FULL_NAME_FIELDS ++ [GIVEN_NAME_FIELD; SURNAME_FIELD]
  ++ EMAIL_RELATED_FIELDS ++ LOCATION_FIELDS
  ++ ["city" : text; "state" : text; "pin_code" : text]
  ++ HARDWARE_ID_FIELDS ++ PHONE_RELATED_FIELDS ++ NETWORK_IP_FIELDS.

(** The last character of a text, if any. *)
Definition last_char (s : text) : option ascii := prev_at None s (length s).

(** Every character of [s] is an ASCII character (code below 128).  On such
    a text the digits, word characters and word boundaries of the model are
    those of [re] on a Python [str]; beyond ASCII [re] knows more word
    characters and digits than [is_word] and [is_digit]. *)
Definition is_ascii_text (s : text) : bool :=
  forallb (fun c => nat_of_ascii c <? 128) s.

(** [code], between [pre] and [post], is a postal code: six digits with no
    word character on either side. *)
Definition postal_code_at (pre code post : text) : Prop :=
  length code = 6 /\ forallb is_digit code = true
  /\ word_opt (last_char pre) = false /\ word_opt (hd_error post) = false.

(** Some postal code occurs in [s]. *)
Definition has_postal_code (s : text) : Prop :=
  exists pre code post, s = pre ++ code ++ post /\ postal_code_at pre code post.

(** [code] is the postal code of [s] that starts first. *)
Definition leftmost_postal_code (s code : text) : Prop :=
  exists pre post,
    s = pre ++ code ++ post /\ postal_code_at pre code post
    /\ forall pre' code' post',
         s = pre' ++ code' ++ post' -> postal_code_at pre' code' post' ->
         length pre <= length pre'.

(** A token of [split()]: not empty, without whitespace. *)
Definition is_token (t : text) : Prop :=
  t <> [] /\ forallb (fun c => negb (is_space c)) t = true.

(** The masked form of one token. *)
Definition mask_token (token : text) : text :=
  firstn 1 token ++ xs (length token - 1).

(** Every field of [r] is a field of [r'] with the same value. *)
Definition extends (r r' : record) : Prop :=
  forall f x, get f r = Some x -> get f r' = Some x.

(* ================================================================== *)
(** ** Sample records *)

Definition phone_record : record := [("phone" : text, VStr "9876543210")].

Definition name_email_record : record :=
  [("name" : text, VStr "Asha Verma"); ("email" : text, VStr "asha@mail.com")].

Definition address_record : record :=
  [("address" : text, VStr "221B Baker Street");
   ("city" : text, VStr "Metropolis")].

Definition numeric_phone_record : record :=
  [("Mobile" : text, VInt 9876543210); ("name" : text, VStr "Asha Verma");
   ("email" : text, VStr "asha@mail.com")].

(** A number as given name, both name fields truthy, and a second signal. *)
Definition numeric_name_record : record :=
  [("first_name" : text, VInt 7); ("last_name" : text, VStr "Rao");
   ("email" : text, VStr "asha@mail.com")].

Definition order_record : record :=
  [("order_id" : text, VInt 9876543210); ("Product" : text, VStr "kettle");
   ("note" : text, VNull); ("city" : text, VStr "Pune")].

Definition mixed_record : record :=
  [("record_no" : text, VInt 17); ("name" : text, VStr "Asha Verma");
   ("Email" : text, VStr "asha@mail.com"); ("phone" : text, VStr "9876543210");
   ("ip" : text, VStr "10.0.0.7"); ("city" : text, VNull)].

Definition upper_email_record : record :=
  [("EMAIL" : text, VStr "asha@mail.com"); ("name" : text, VStr "Asha Verma")].

Definition lower_email_record : record :=
  [("email" : text, VStr "asha@mail.com"); ("name" : text, VStr "Asha Verma")].

Definition upper_phone_record : record :=
  [("PHONE" : text, VStr "9876543210"); ("Email" : text, VStr "asha@mail.com")].

Definition lower_phone_record : record :=
  [("phone" : text, VStr "9876543210"); ("Email" : text, VStr "asha@mail.com")].

Definition device_only_record : record :=
  [("device_id" : text, VStr "ABCDEF123456"); ("ip" : text, VStr "10.0.0.7");
   ("address" : text, VStr "12 MG Road 560001")].

Definition null_phone_record : record :=
  [("mobile" : text, VNull); ("device_id" : text, VStr "ABCDEF123456");
   ("ip_address" : text, VStr "10.0.0.7")].

Definition falsy_fields_record : record :=
  [("phone" : text, VInt 0); ("email" : text, VStr "");
   ("name" : text, VStr "Asha Verma"); ("ip" : text, VStr "10.0.0.7");
   ("device_id" : text, VNull)].

Definition quasi_record : record :=
  [("name" : text, VStr "Asha Verma"); ("email" : text, VStr "asha@mail.com");
   ("device_id" : text, VInt 12345678); ("ip" : text, VStr "10.0.7")].

Definition pair_record : record :=
  [("first_name" : text, VStr "Asha Rani"); ("last_name" : text, VStr "V");
   ("email" : text, VStr "asha@mail.com")].

(* ================================================================== *)
(** ** Equality of texts and membership *)

Lemma text_eqb_eq (a b : text) : text_eqb a b = true <-> a = b.
Proof.
  unfold text_eqb. destruct (list_eq_dec ascii_dec a b); split; congruence.
Qed.

Lemma text_eqb_refl (a : text) : text_eqb a a = true.
Proof. apply text_eqb_eq. reflexivity. Qed.

Lemma text_eqb_neq (a b : text) : text_eqb a b = false <-> a <> b.
Proof.
  unfold text_eqb. destruct (list_eq_dec ascii_dec a b); split; congruence.
Qed.

Lemma mem_In (x : text) (s : list text) : mem x s = true <-> In x s.
Proof.
  unfold mem. rewrite existsb_exists. split.
  - intros [y [Hy E]]. apply text_eqb_eq in E. subst. exact Hy.
  - intros H. exists x. split; [exact H | apply text_eqb_refl].
Qed.

Example search_ten :
  group0 decimal_ten_pattern "call 9876543210 now" = Some ("9876543210" : text).
Proof. reflexivity. Qed.

(* ================================================================== *)
(** ** The scenarios of the specification, run on the model *)

Example scenario_phone :
  process_record phone_record
  = Ok ([("phone" : text, VStr "98XXXXXX10")], true).
Proof. vm_compute. reflexivity. Qed.

Example scenario_name_email :
  process_record name_email_record
  = Ok ([("name" : text, VStr "AXXX VXXXX");
         ("email" : text, VStr "asXXX@mail.com")], true).
Proof. vm_compute. reflexivity. Qed.

Example scenario_name_alone :
  process_record [("name" : text, VStr "Asha Verma")]
  = Ok ([("name" : text, VStr "Asha Verma")], false).
Proof. vm_compute. reflexivity. Qed.

Example scenario_aadhar :
  process_record [("aadhar" : text, VStr "123456789012")]
  = Ok ([("aadhar" : text, VStr "1234XXXX9012")], true).
Proof. vm_compute. reflexivity. Qed.

Example scenario_aadhar_number :
  process_record [("aadhar" : text, VInt 123456789012)]
  = Ok ([("aadhar" : text, VStr "1234XXXX9012")], true).
Proof. vm_compute. reflexivity. Qed.

Example scenario_address :
  count_combinatorial_elements address_record = 1
  /\ process_record address_record = Ok (address_record, false).
Proof. vm_compute. split; reflexivity. Qed.

Example str_examples :
  str (VInt 0) = ("0" : text) /\ str (VInt (-42)) = ("-42" : text)
  /\ str (VInt 1234567890123) = ("1234567890123" : text).
Proof. vm_compute. repeat split; reflexivity. Qed.

Example masks_examples :
  obfuscate_physical_address "221B Baker Street, 560001 KA"
  = ("221XXX..., 560001" : text)
  /\ obfuscate_ip_address "192.168.1.20" = ("192.XXX.XXX.20" : text)
  /\ obfuscate_ip_address "192.168.1" = REDACTED_PII
  /\ obfuscate_device_identifier "ABCDEF123456" = ("ABCXXX456" : text)
  /\ obfuscate_passport_number "no P1234567 here" = ("no PXXXXXXX here" : text)
  /\ obfuscate_personal_name "  asha   k verma " = ("aXXX k vXXXX" : text)
  /\ replace "aaaa" "aa" "b" = ("bb" : text).
Proof. vm_compute. repeat split; reflexivity. Qed.

(* ================================================================== *)
(** ** Records: lookup and update *)

Section RecordFacts.

Lemma get_set_same (k : text) (v : value) (r : record) :
  get k (set k v r) = Some v.
Proof.
  induction r as [|[k' v'] r IH]; simpl.
  - rewrite text_eqb_refl. reflexivity.
  - destruct (text_eqb k k') eqn:E; simpl; rewrite E; auto.
Qed.

Lemma get_set_other (k k' : text) (v : value) (r : record) :
  k' <> k -> get k' (set k v r) = get k' r.
Proof.
  intros N. induction r as [|[k0 v0] r IH]; simpl.
  - apply text_eqb_neq in N. rewrite N. reflexivity.
  - destruct (text_eqb k k0) eqn:E; simpl.
    + apply text_eqb_eq in E. subst k0.
      apply text_eqb_neq in N. rewrite N. reflexivity.
    + destruct (text_eqb k' k0); auto.
Qed.

Lemma get_not_key (k : text) (r : record) : ~ In k (keys r) -> get k r = None.
Proof.
  induction r as [|[k' v'] r IH]; simpl; intros N; auto.
  destruct (text_eqb k k') eqn:E.
  - apply text_eqb_eq in E. subst. tauto.
  - apply IH. tauto.
Qed.

Lemma get_key (k : text) (r : record) (v : value) :
  get k r = Some v -> In k (keys r).
Proof.
  induction r as [|[k' v'] r IH]; simpl; intros H; [discriminate|].
  destruct (text_eqb k k') eqn:E.
  - apply text_eqb_eq in E. auto.
  - auto.
Qed.

(** In a dict, iterating over the entries reads what indexing reads. *)
Lemma get_entry (k : text) (v : value) (r : record) :
  wf_record r -> In (k, v) r -> get k r = Some v.
Proof.
  unfold wf_record. induction r as [|[k' v'] r IH]; simpl; intros W H; [tauto|].
  inversion W as [|? ? Hn Hd]; subst.
  destruct H as [H|H].
  - inversion H; subst. rewrite text_eqb_refl. reflexivity.
  - destruct (text_eqb k k') eqn:E.
    + apply text_eqb_eq in E. subst k'.
      exfalso. apply Hn. change k with (fst (k, v)). apply in_map. exact H.
    + auto.
Qed.

Lemma get_in (k : text) (v : value) (r : record) :
  get k r = Some v -> In (k, v) r.
Proof.
  induction r as [|[k' v'] r IH]; simpl; intros H; [discriminate|].
  destruct (text_eqb k k') eqn:E.
  - apply text_eqb_eq in E. inversion H; subst. auto.
  - auto.
Qed.

(** The update of the key found after the entries [pre]. *)
Lemma set_middle (pre suf : record) (k : text) (v v' : value) :
  ~ In k (keys pre) ->
  set k v' (pre ++ (k, v) :: suf) = pre ++ (k, v') :: suf.
Proof.
  induction pre as [|[k0 v0] pre IH]; simpl; intros N.
  - rewrite text_eqb_refl. reflexivity.
  - destruct (text_eqb k k0) eqn:E.
    + apply text_eqb_eq in E. subst. tauto.
    + f_equal. apply IH. tauto.
Qed.

Lemma get_middle (pre suf : record) (k : text) (v : value) :
  ~ In k (keys pre) -> get k (pre ++ (k, v) :: suf) = Some v.
Proof.
  induction pre as [|[k0 v0] pre IH]; simpl; intros N.
  - rewrite text_eqb_refl. reflexivity.
  - destruct (text_eqb k k0) eqn:E.
    + apply text_eqb_eq in E. subst. tauto.
    + apply IH. tauto.
Qed.

End RecordFacts.

(** *** Entry-wise rewriting of a record *)

Lemma keys_entrywise (g : text -> value -> value) (r : record) :
  keys (entrywise g r) = keys r.
Proof.
  unfold keys, entrywise. rewrite map_map. reflexivity.
Qed.

Lemma wf_entrywise (g : text -> value -> value) (r : record) :
  wf_record r -> wf_record (entrywise g r).
Proof. unfold wf_record. rewrite keys_entrywise. auto. Qed.

Lemma get_entrywise (g : text -> value -> value) (k : text) (r : record) :
  get k (entrywise g r) = option_map (g k) (get k r).
Proof.
  induction r as [|[k' v'] r IH]; simpl; auto.
  destruct (text_eqb k k') eqn:E; auto.
  apply text_eqb_eq in E. subst. reflexivity.
Qed.

Lemma entrywise_entrywise (g h : text -> value -> value) (r : record) :
  entrywise h (entrywise g r) = entrywise (fun k v => h k (g k v)) r.
Proof. unfold entrywise. rewrite map_map. reflexivity. Qed.

Lemma entrywise_ext (g h : text -> value -> value) (r : record) :
  (forall k v, In (k, v) r -> g k v = h k v) ->
  entrywise g r = entrywise h r.
Proof.
  intros H. unfold entrywise. apply map_ext_in. intros [k v] Hin. simpl.
  rewrite (H k v Hin). reflexivity.
Qed.

Lemma entrywise_id (g : text -> value -> value) (r : record) :
  (forall k v, In (k, v) r -> g k v = v) -> entrywise g r = r.
Proof.
  intros H. unfold entrywise. rewrite <- (map_id r) at 2.
  apply map_ext_in. intros [k v] Hin. simpl. rewrite (H k v Hin). reflexivity.
Qed.

(** An update of a key the dict has rewrites that one entry. *)
Lemma set_entrywise (f : text) (x v : value) (r : record) :
  wf_record r -> get f r = Some v ->
  set f x r = entrywise (put_at f x) r.
Proof.
  unfold wf_record, put_at.
  induction r as [|[k' v'] r IH]; simpl; intros W H; [discriminate|].
  inversion W as [|? ? Hn Hd]; subst.
  destruct (text_eqb f k') eqn:E.
  - apply text_eqb_eq in E. subst k'. rewrite text_eqb_refl. f_equal.
    symmetry. apply entrywise_id. intros k v0 Hin.
    destruct (text_eqb k f) eqn:E2; auto.
    apply text_eqb_eq in E2. subst k. exfalso. apply Hn.
    change f with (fst (f, v0)). apply in_map. exact Hin.
  - assert (E' : text_eqb k' f = false).
    { apply text_eqb_neq. apply text_eqb_neq in E. congruence. }
    rewrite E'. f_equal. apply IH; auto.
Qed.

(* ================================================================== *)
(** ** The unconditional pass, field by field *)

Lemma redact_standalone_middle (pre suf : record) (k : text) (v : value) :
  ~ In k (keys pre) ->
  redact_standalone (pre ++ (k, v) :: suf) k
  = Ok (pre ++ (k, standalone_mask k v) :: suf).
Proof.
  intros N. unfold redact_standalone, getitem.
  rewrite (get_middle pre suf k v N). cbn [bind].
  unfold standalone_mask.
  destruct v as [s|z|]; [| |reflexivity];
    cbv zeta;
    repeat match goal with
           | |- context [if ?c then _ else _] => destruct c
           end;
    repeat rewrite (set_middle pre suf k _ _ N); reflexivity.
Qed.

Lemma for_each_standalone (suf pre : record) :
  wf_record (pre ++ suf) ->
  for_each redact_standalone (keys suf) (pre ++ suf)
  = Ok (pre ++ entrywise standalone_mask suf).
Proof.
  revert pre. induction suf as [|[k v] suf IH]; intros pre W; simpl.
  - reflexivity.
  - assert (N : ~ In k (keys pre)).
    { unfold wf_record, keys in W. rewrite map_app in W. simpl in W.
      apply NoDup_remove_2 in W. intros H. apply W. apply in_or_app. auto. }
    rewrite (redact_standalone_middle pre suf k v N). cbn [bind].
    specialize (IH (pre ++ [(k, standalone_mask k v)])).
    rewrite <- app_assoc in IH. simpl in IH. rewrite IH.
    + rewrite <- app_assoc. reflexivity.
    + unfold wf_record, keys in *. rewrite map_app in *. simpl in *. exact W.
Qed.

(** The first loop never raises on a dict, and rewrites it entry by entry. *)
Lemma unconditional_pass_entrywise (r : record) :
  wf_record r -> unconditional_pass r = Ok (entrywise standalone_mask r).
Proof.
  intros W. unfold unconditional_pass.
  apply (for_each_standalone r []). exact W.
Qed.

(* ================================================================== *)
(** ** The conditional pass, field by field *)

Lemma set_same_value (f : text) (v : value) (r : record) :
  wf_record r -> get f r = Some v -> set f v r = r.
Proof.
  intros W H. rewrite (set_entrywise f v v r W H).
  apply entrywise_id. intros k v0 Hin. unfold put_at.
  destruct (text_eqb k f) eqn:E; auto.
  apply text_eqb_eq in E. subst k.
  rewrite (get_entry f v0 r W Hin) in H. congruence.
Qed.

(** A guarded assignment to one key is an entry-wise rewriting. *)
Lemma update_entrywise (f : text) (upd : value -> value) (r : record) :
  wf_record r ->
  match get f r with
  | Some v => set f (upd v) r
  | None => r
  end = entrywise (update_at f upd) r.
Proof.
  intros W. destruct (get f r) as [v|] eqn:G.
  - rewrite (set_entrywise f (upd v) v r W G).
    apply entrywise_ext. intros k v0 Hin. unfold put_at, update_at.
    destruct (text_eqb k f) eqn:E; auto.
    apply text_eqb_eq in E. subst k.
    rewrite (get_entry f v0 r W Hin) in G. congruence.
  - symmetry. apply entrywise_id. intros k v0 Hin. unfold update_at.
    destruct (text_eqb k f) eqn:E; auto.
    apply text_eqb_eq in E. subst k.
    rewrite (get_entry f v0 r W Hin) in G. discriminate.
Qed.

Lemma redact_email_entrywise (r : record) (f : text) :
  wf_record r -> redact_email r f = entrywise (update_at f email_upd) r.
Proof.
  intros W. rewrite <- (update_entrywise f email_upd r W).
  unfold redact_email, email_upd. destruct (get f r) as [v|] eqn:G; auto.
  destruct (truthy v); simpl.
  - destruct (found email_pattern (str v)); auto.
    symmetry. apply set_same_value; auto.
  - symmetry. apply set_same_value; auto.
Qed.

Lemma redact_full_name_entrywise (r : record) (f : text) :
  wf_record r -> redact_full_name r f = entrywise (update_at f full_name_upd) r.
Proof.
  intros W. rewrite <- (update_entrywise f full_name_upd r W).
  unfold redact_full_name, full_name_upd. destruct (get f r) as [v|] eqn:G; auto.
  destruct (truthy v && appears_as_complete_name (str v)); auto.
  symmetry. apply set_same_value; auto.
Qed.

Lemma redact_with_entrywise (mask : text -> text) (r : record) (f : text) :
  wf_record r ->
  redact_with mask r f = entrywise (update_at f (truthy_upd mask)) r.
Proof.
  intros W. rewrite <- (update_entrywise f (truthy_upd mask) r W).
  unfold redact_with, truthy_upd. destruct (get f r) as [v|] eqn:G; auto.
  destruct (truthy v); auto.
  symmetry. apply set_same_value; auto.
Qed.

Lemma mask_initial_text (k : text) (c : ascii) (t : text) (r : record) :
  wf_record r -> get k r = Some (VStr (c :: t)) ->
  mask_initial k r = Ok (entrywise (update_at k initial_mask) r).
Proof.
  intros W G. unfold mask_initial, getitem. rewrite G. cbn [bind index0].
  rewrite <- (update_entrywise k initial_mask r W). rewrite G.
  cbn [initial_mask str].
  replace (length (c :: t) - 1) with (length t) by (simpl; lia).
  reflexivity.
Qed.

Lemma mask_initial_number (k : text) (z : Z) (r : record) :
  get k r = Some (VInt z) -> mask_initial k r = Raise TypeError.
Proof.
  intros G. unfold mask_initial, getitem. rewrite G. reflexivity.
Qed.

Lemma present_contains (k : text) (r : record) :
  present k r = true -> contains k r = true.
Proof. unfold present, contains. destruct (get k r); auto. Qed.

Lemma redact_name_pair_spec (r : record) :
  wf_record r ->
  redact_name_pair r
  = if pair_present r
    then if pair_is_text r
         then Ok (entrywise (update_at SURNAME_FIELD initial_mask)
                    (entrywise (update_at GIVEN_NAME_FIELD initial_mask) r))
         else Raise TypeError
    else Ok r.
Proof.
  intros W. unfold redact_name_pair, pair_present, pair_is_text.
  destruct (present GIVEN_NAME_FIELD r) eqn:PG;
    [|rewrite andb_false_r; reflexivity].
  destruct (present SURNAME_FIELD r) eqn:PS;
    [|rewrite andb_false_r; reflexivity].
  rewrite (present_contains _ _ PG), (present_contains _ _ PS).
  cbn [andb].
  unfold present in PG, PS.
  destruct (get GIVEN_NAME_FIELD r) as [vg|] eqn:GG; [|discriminate].
  destruct (get SURNAME_FIELD r) as [vs|] eqn:GS; [|discriminate].
  destruct vg as [[|c t]|z|]; try discriminate.
  - rewrite (mask_initial_text GIVEN_NAME_FIELD c t r W GG). cbn [bind].
    assert (W' : wf_record (entrywise (update_at GIVEN_NAME_FIELD initial_mask) r))
      by (apply wf_entrywise; exact W).
    assert (GS' : get SURNAME_FIELD
                    (entrywise (update_at GIVEN_NAME_FIELD initial_mask) r)
                  = Some vs).
    { rewrite get_entrywise, GS. reflexivity. }
    destruct vs as [[|c' t']|z'|]; try discriminate.
    + apply (mask_initial_text SURNAME_FIELD c' t' _ W' GS').
    + apply (mask_initial_number SURNAME_FIELD z' _ GS').
  - unfold bind. rewrite (mask_initial_number GIVEN_NAME_FIELD z r GG).
    destruct vs as [s|z'|]; reflexivity.
Qed.

Ltac split_on_key k :=
  repeat match goal with
         | |- context [text_eqb k ?f] =>
             let E := fresh "E" in
             destruct (text_eqb k f) eqn:E;
             [apply text_eqb_eq in E; subst k; vm_compute; reflexivity|]
         end.

Section Composition.

Variables em nm ini addr ip dev : value -> value.

(** The loops assign to pairwise distinct keys, so their composition acts on
    each key through one of them. *)
Lemma loops_compose (k : text) (v : value) :
  update_at "device_id" dev k
    (update_at "ip_address" ip k
       (update_at "ip" ip k
          (update_at "address" addr k
             (update_at SURNAME_FIELD ini k
                (update_at GIVEN_NAME_FIELD ini k
                   (update_at "name" nm k
                      (update_at "username" em k
                         (update_at "alt_email" em k
                            (update_at "email" em k v)))))))))
  = if mem k EMAIL_RELATED_FIELDS then em v
    else if mem k FULL_NAME_FIELDS then nm v
    else if text_eqb k GIVEN_NAME_FIELD || text_eqb k SURNAME_FIELD then ini v
    else if mem k LOCATION_FIELDS then addr v
    else if mem k NETWORK_IP_FIELDS then ip v
    else if mem k HARDWARE_ID_FIELDS then dev v
    else v.
Proof.
  unfold update_at, mem, EMAIL_RELATED_FIELDS, FULL_NAME_FIELDS,
    GIVEN_NAME_FIELD, SURNAME_FIELD, LOCATION_FIELDS, NETWORK_IP_FIELDS,
    HARDWARE_ID_FIELDS, existsb.
  split_on_key k. reflexivity.
Qed.

End Composition.

Lemma quasi_fields_not_standalone (k : text) :
  In k quasi_fields -> mem (lower k) standalone_fields = false.
Proof.
  intros H. vm_compute in H.
  repeat (destruct H as [H|H]; [subst k; vm_compute; reflexivity|]).
  destruct H.
Qed.

Lemma standalone_mask_other (k : text) (v : value) :
  mem (lower k) standalone_fields = false -> standalone_mask k v = v.
Proof.
  unfold standalone_fields, mem. repeat rewrite existsb_app.
  intros H.
  apply orb_false_elim in H. destruct H as [H1 H].
  apply orb_false_elim in H. destruct H as [H2 H].
  apply orb_false_elim in H. destruct H as [H3 H4].
  unfold standalone_mask, mem. destruct v as [s|z|]; auto; cbv zeta.
  all: rewrite H1, H2, H3, H4; reflexivity.
Qed.

Lemma get_entrywise_fixed (g : text -> value -> value) (k : text) (r : record) :
  (forall v, g k v = v) -> get k (entrywise g r) = get k r.
Proof.
  intros H. rewrite get_entrywise. destruct (get k r); simpl; congruence.
Qed.

Lemma redact_name_pair_entrywise (r : record) :
  wf_record r ->
  redact_name_pair r
  = if pair_present r && negb (pair_is_text r) then Raise TypeError
    else Ok (entrywise (update_at SURNAME_FIELD (pair_upd (pair_present r)))
               (entrywise (update_at GIVEN_NAME_FIELD (pair_upd (pair_present r)))
                  r)).
Proof.
  intros W. rewrite (redact_name_pair_spec r W).
  destruct (pair_present r); cbn [andb].
  - destruct (pair_is_text r); reflexivity.
  - f_equal. rewrite entrywise_entrywise. symmetry. apply entrywise_id.
    intros k v _. unfold update_at, pair_upd.
    destruct (text_eqb k SURNAME_FIELD), (text_eqb k GIVEN_NAME_FIELD);
      reflexivity.
Qed.

(** The conditional pass raises exactly when the name pair is present and
    one of the two values is a number; otherwise it rewrites the record
    entry by entry. *)
Lemma conditional_pass_spec (r : record) :
  wf_record r ->
  conditional_pass r
  = if pair_present r && negb (pair_is_text r) then Raise TypeError
    else Ok (entrywise (quasi_mask (pair_present r)) r).
Proof.
  intros W. unfold conditional_pass.
  unfold EMAIL_RELATED_FIELDS, FULL_NAME_FIELDS, LOCATION_FIELDS,
    NETWORK_IP_FIELDS, HARDWARE_ID_FIELDS.
  cbn [fold_left].
  rewrite (redact_email_entrywise r _ W).
  rewrite (redact_email_entrywise (entrywise _ r))
    by (apply wf_entrywise; exact W).
  rewrite entrywise_entrywise.
  rewrite (redact_email_entrywise (entrywise _ r))
    by (apply wf_entrywise; exact W).
  rewrite entrywise_entrywise.
  rewrite (redact_full_name_entrywise (entrywise _ r))
    by (apply wf_entrywise; exact W).
  rewrite entrywise_entrywise.
  rewrite (redact_name_pair_entrywise (entrywise _ r))
    by (apply wf_entrywise; exact W).
  repeat rewrite entrywise_entrywise.
  match goal with
  | |- context [pair_present (entrywise ?g r)] =>
      assert (HG : get GIVEN_NAME_FIELD (entrywise g r) = get GIVEN_NAME_FIELD r)
        by (apply get_entrywise_fixed; intros v; reflexivity);
      assert (HS : get SURNAME_FIELD (entrywise g r) = get SURNAME_FIELD r)
        by (apply get_entrywise_fixed; intros v; reflexivity);
      assert (HP : pair_present (entrywise g r) = pair_present r)
        by (unfold pair_present, present; rewrite HG, HS; reflexivity);
      assert (HT : pair_is_text (entrywise g r) = pair_is_text r)
        by (unfold pair_is_text; rewrite HG, HS; reflexivity)
  end.
  rewrite HP, HT.
  destruct (pair_present r && negb (pair_is_text r)); [reflexivity|].
  cbn [bind].
  rewrite (redact_with_entrywise _ (entrywise _ r))
    by (apply wf_entrywise; exact W).
  rewrite entrywise_entrywise.
  rewrite (redact_with_entrywise _ (entrywise _ r))
    by (apply wf_entrywise; exact W).
  rewrite entrywise_entrywise.
  rewrite (redact_with_entrywise _ (entrywise _ r))
    by (apply wf_entrywise; exact W).
  rewrite entrywise_entrywise.
  rewrite (redact_with_entrywise _ (entrywise _ r))
    by (apply wf_entrywise; exact W).
  rewrite entrywise_entrywise.
  f_equal. apply entrywise_ext. intros k v _.
  exact (loops_compose email_upd full_name_upd (pair_upd (pair_present r))
           (truthy_upd obfuscate_physical_address)
           (truthy_upd obfuscate_ip_address)
           (truthy_upd obfuscate_device_identifier) k v).
Qed.

(** The whole function on a dict: when it raises and what it returns. *)
Lemma apply_redaction_rules_spec (r : record) (b : bool) :
  wf_record r ->
  apply_redaction_rules r b
  = if b && (2 <=? count_combinatorial_elements r) && pair_not_text r
    then Raise TypeError
    else Ok (entrywise (redacted_value r b) r).
Proof.
  intros W. unfold apply_redaction_rules, redacted_value, pair_not_text.
  rewrite (unconditional_pass_entrywise r W). cbn [bind].
  destruct (b && (2 <=? count_combinatorial_elements r)); cbn [andb];
    [|reflexivity].
  rewrite (conditional_pass_spec (entrywise standalone_mask r))
    by (apply wf_entrywise; exact W).
  assert (HG : get GIVEN_NAME_FIELD (entrywise standalone_mask r)
               = get GIVEN_NAME_FIELD r)
    by (apply get_entrywise_fixed; intros v; apply standalone_mask_other;
        reflexivity).
  assert (HS : get SURNAME_FIELD (entrywise standalone_mask r)
               = get SURNAME_FIELD r)
    by (apply get_entrywise_fixed; intros v; apply standalone_mask_other;
        reflexivity).
  assert (HP : pair_present (entrywise standalone_mask r) = pair_present r)
    by (unfold pair_present, present; rewrite HG, HS; reflexivity).
  assert (HT : pair_is_text (entrywise standalone_mask r) = pair_is_text r)
    by (unfold pair_is_text; rewrite HG, HS; reflexivity).
  rewrite HP, HT.
  destruct (pair_present r && negb (pair_is_text r)); [reflexivity|].
  rewrite entrywise_entrywise. reflexivity.
Qed.

(* ================================================================== *)
(** ** The matcher on the fixed-length patterns *)

Section Matcher.

Lemma run_length_le (p : ascii -> bool) (n : nat) (s : text) :
  run_length p (Some n) s <= n.
Proof.
  revert s. induction n as [|n IH]; intros s; destruct s as [|c t]; simpl;
    try lia.
  destruct (p c); [|lia]. specialize (IH t). lia.
Qed.

Lemma run_length_full (p : ascii -> bool) (n : nat) (s : text) :
  run_length p (Some n) s = n
  <-> n <= length s /\ forallb p (firstn n s) = true.
Proof.
  revert s. induction n as [|n IH]; intros s.
  - destruct s; simpl; (split; [intros _; split; [lia|reflexivity] | reflexivity]).
  - destruct s as [|c t]; simpl.
    + split; [discriminate | intros [H _]; lia].
    + destruct (p c); simpl.
      * specialize (IH t). split.
        -- intros H. injection H as H. apply IH in H. split; [lia|tauto].
        -- intros [H1 H2]. f_equal. apply IH. split; [lia|exact H2].
      * split; [discriminate | intros [_ H]; discriminate].
Qed.

Lemma try_down_eq (f : nat -> option nat) (lo k : nat) :
  try_down f lo k
  = if k <? lo then None
    else match f k with
         | Some n => Some (k + n)
         | None => match k with O => None | S k' => try_down f lo k' end
         end.
Proof. destruct k; reflexivity. Qed.

(** With [lo = hi = n] only the count [n] is tried. *)
Lemma try_down_exact (f : nat -> option nat) (n m : nat) :
  m <= n ->
  try_down f n m
  = if m =? n then option_map (Nat.add n) (f n) else None.
Proof.
  intros H. rewrite try_down_eq. destruct (m =? n) eqn:E.
  - apply Nat.eqb_eq in E. subst m. rewrite Nat.ltb_irrefl.
    destruct (f n); [reflexivity|]. destruct n as [|n]; [reflexivity|].
    rewrite try_down_eq.
    assert (L : (n <? S n) = true) by (apply Nat.ltb_lt; lia).
    rewrite L. reflexivity.
  - apply Nat.eqb_neq in E.
    assert (L : (m <? n) = true) by (apply Nat.ltb_lt; lia).
    rewrite L. reflexivity.
Qed.

Lemma match_here_exact (p : ascii -> bool) (n : nat) (prev : option ascii)
  (s : text) :
  match_here [exactly p n] prev s
  = if run_length p (Some n) s =? n then Some (n + 0) else None.
Proof.
  unfold exactly. cbn [match_here].
  rewrite try_down_exact by apply run_length_le. reflexivity.
Qed.

Lemma match_here_bounded (p : ascii -> bool) (n : nat) (prev : option ascii)
  (s : text) :
  match_here [Bnd; exactly p n; Bnd] prev s
  = if at_boundary prev s
       && (run_length p (Some n) s =? n)
       && at_boundary (prev_at prev s n) (skipn n s)
    then Some (n + 0) else None.
Proof.
  unfold exactly. cbn [match_here].
  destruct (at_boundary prev s); [|reflexivity].
  rewrite try_down_exact by apply run_length_le.
  destruct (run_length p (Some n) s =? n); [|reflexivity].
  destruct (at_boundary (prev_at prev s n) (skipn n s)); reflexivity.
Qed.

Lemma prev_at_cons (prev : option ascii) (c : ascii) (t : text) (d : nat) :
  prev_at prev (c :: t) (S d) = prev_at (Some c) t d.
Proof. destruct d; reflexivity. Qed.

(** [search_from] returns the match at the least position that has one. *)
Lemma search_from_some (re : regex) (s : text) :
  forall i prev j m,
    search_from re i prev s = Some (j, m) ->
    exists d n,
      j = i + d /\ d <= length s
      /\ match_here re (prev_at prev s d) (skipn d s) = Some n
      /\ m = firstn n (skipn d s)
      /\ forall d', d' < d ->
           match_here re (prev_at prev s d') (skipn d' s) = None.
Proof.
  induction s as [|c t IH]; intros i prev j m H; simpl in H.
  - destruct (match_here re prev []) as [n|] eqn:E; [|discriminate].
    inversion H; subst. exists 0, n. simpl.
    repeat split; auto; try lia.
  - destruct (match_here re prev (c :: t)) as [n|] eqn:E.
    + inversion H; subst. exists 0, n. simpl.
      repeat split; auto; try lia.
    + apply IH in H. destruct H as [d [n [Hj [Hd [Hm [Hf Hl]]]]]].
      exists (S d), n. rewrite prev_at_cons. simpl skipn. simpl length.
      repeat split; auto; try lia.
      intros d' L. destruct d' as [|d']; [exact E|].
      rewrite prev_at_cons. simpl skipn. apply Hl. lia.
Qed.

Lemma search_from_none (re : regex) (s : text) :
  forall i prev,
    search_from re i prev s = None ->
    forall d, d <= length s ->
      match_here re (prev_at prev s d) (skipn d s) = None.
Proof.
  induction s as [|c t IH]; intros i prev H d L; simpl in H.
  - simpl in L. assert (d = 0) by lia. subst d. simpl.
    destruct (match_here re prev []); [discriminate|reflexivity].
  - destruct (match_here re prev (c :: t)) as [n|] eqn:E; [discriminate|].
    destruct d as [|d]; [exact E|].
    rewrite prev_at_cons. simpl skipn. apply (IH _ _ H). simpl in L. lia.
Qed.

Lemma search_some (re : regex) (s : text) (j : nat) (m : text) :
  search re s = Some (j, m) ->
  exists n,
    j <= length s /\ match_at re s j = Some n
    /\ m = firstn n (skipn j s)
    /\ forall j', j' < j -> match_at re s j' = None.
Proof.
  intros H. apply search_from_some in H.
  destruct H as [d [n [Hj [Hd [Hm [Hf Hl]]]]]]. simpl in Hj. subst j.
  exists n. auto.
Qed.

Lemma search_none (re : regex) (s : text) :
  search re s = None ->
  forall j, j <= length s -> match_at re s j = None.
Proof. intros H. apply (search_from_none _ _ _ _ H). Qed.

(** A match at some position makes the search succeed at the least one. *)
Lemma search_least (re : regex) (s : text) (j n : nat) :
  j <= length s -> match_at re s j = Some n ->
  (forall j', j' < j -> match_at re s j' = None) ->
  search re s = Some (j, firstn n (skipn j s)).
Proof.
  intros L M Least. destruct (search re s) as [[j0 m0]|] eqn:E.
  - apply search_some in E. destruct E as [n0 [L0 [M0 [F0 Least0]]]].
    destruct (Nat.lt_trichotomy j0 j) as [C|[C|C]].
    + rewrite (Least j0 C) in M0. discriminate.
    + subst j0. rewrite M in M0. inversion M0; subst. reflexivity.
    + rewrite (Least0 j C) in M. discriminate.
  - rewrite (search_none _ _ E j L) in M. discriminate.
Qed.

Lemma found_match (re : regex) (s : text) (j n : nat) :
  j <= length s -> match_at re s j = Some n -> found re s = true.
Proof.
  intros L M. unfold found. destruct (search re s) eqn:E; [reflexivity|].
  rewrite (search_none _ _ E j L) in M. discriminate.
Qed.

(** A word-bounded run of [n] characters is in particular a run of [n]
    characters: where the pattern library's [\b...\b] pattern is found, the
    inline pattern is found too. *)
Lemma found_bounded_unbounded (p : ascii -> bool) (n : nat) (s : text) :
  found [Bnd; exactly p n; Bnd] s = true -> found [exactly p n] s = true.
Proof.
  unfold found at 1. destruct (search _ s) as [[j m]|] eqn:E; [|discriminate].
  intros _. apply search_some in E. destruct E as [x [L [M _]]].
  unfold match_at in M. rewrite match_here_bounded in M.
  apply (found_match [exactly p n] s j (n + 0) L).
  unfold match_at. rewrite match_here_exact.
  destruct (run_length p (Some n) (skipn j s) =? n); [reflexivity|].
  rewrite andb_false_r in M. discriminate.
Qed.

End Matcher.

(* ================================================================== *)
(** ** Checking that a literal record is a dict *)

Lemma distinct_NoDup (ks : list text) : distinct ks = true -> NoDup ks.
Proof.
  induction ks as [|k ks IH]; simpl; intros H; [constructor|].
  apply andb_prop in H. destruct H as [H1 H2]. constructor; auto.
  intros Hin. apply mem_In in Hin. rewrite Hin in H1. discriminate.
Defined.

Lemma wf_check (r : record) : distinct (keys r) = true -> wf_record r.
Proof. apply distinct_NoDup. Defined.

(* ================================================================== *)
(** ** Standalone categories *)

Lemma pattern_triggers (c : category) (s : text) :
  found (category_pattern c) s = true -> found (category_trigger c) s = true.
Proof.
  destruct c; simpl; auto; apply found_bounded_unbounded.
Qed.

Lemma null_never_triggers (c : category) :
  found (category_trigger c) (str VNull) = false.
Proof. destruct c; vm_compute; reflexivity. Qed.

(** From [mem l fields = true] for a literal set: one goal per name. *)
Ltac name_the_key l H :=
  apply mem_In in H; vm_compute in H;
  repeat (destruct H as [H|H]; [subst l|]); try contradiction.

(** The unconditional pass on a field of category [c] whose text triggers
    the category's test. *)
Lemma standalone_mask_category (c : category) (k : text) (v : value) :
  mem (lower k) (category_fields c) = true ->
  found (category_trigger c) (str v) = true ->
  standalone_mask k v = VStr (category_mask c (str v)).
Proof.
  intros M F.
  assert (N : v <> VNull).
  { intros E. subst v. rewrite null_never_triggers in F. discriminate. }
  unfold standalone_mask.
  generalize dependent (lower k). intros l M.
  destruct c; cbn [category_fields category_trigger category_mask] in *;
    name_the_key l M;
    (destruct v as [s|z|]; [| |congruence]); cbv zeta; rewrite F;
    reflexivity.
Qed.

Lemma standalone_key_not_quasi (k : text) :
  mem (lower k) standalone_fields = true -> mem k quasi_fields = false.
Proof.
  intros H. destruct (mem k quasi_fields) eqn:E; auto.
  apply mem_In in E. apply quasi_fields_not_standalone in E. congruence.
Qed.

Lemma category_fields_standalone (c : category) (k : text) :
  mem k (category_fields c) = true -> mem k standalone_fields = true.
Proof.
  intros H. apply mem_In in H. apply mem_In. unfold standalone_fields.
  destruct c; simpl in H; repeat (apply in_or_app; auto; right);
    repeat (apply in_or_app; auto).
Qed.

Lemma quasi_mask_other (pair : bool) (k : text) (v : value) :
  mem k quasi_fields = false -> quasi_mask pair k v = v.
Proof.
  unfold quasi_fields, mem. repeat rewrite existsb_app. intros H.
  apply orb_false_elim in H. destruct H as [H1 H].
  apply orb_false_elim in H. destruct H as [H2 H].
  apply orb_false_elim in H. destruct H as [H3 H].
  apply orb_false_elim in H. destruct H as [H4 H].
  apply orb_false_elim in H. destruct H as [H5 H6].
  unfold quasi_mask, mem. rewrite H1, H2, H4, H5, H6.
  cbn [existsb] in H3. rewrite orb_false_r in H3. rewrite H3. reflexivity.
Qed.

(* ================================================================== *)
(** ** Properties of the rule engine *)

(** C1.  In every dict, a field whose lowercased name is in the PHONE,
    NATIONAL_ID, PASSPORT or PAYMENT_HANDLE taxonomy and whose text matches
    that category's pattern holds the category's masked form in the record
    [apply_redaction_rules] returns, for [is_pii] true and false alike.  The
    call returns a record for every input but the one on which the
    given-name/surname assignment raises (the name pair holds a number,
    [is_pii] is true and the score is at least 2). *)
Theorem unconditional_pass_masks_standalone_fields
  (r : record) (k : text) (v : value) (c : category) (b : bool) :
  wf_record r ->
  get k r = Some v ->
  mem (lower k) (category_fields c) = true ->
  found (category_pattern c) (str v) = true ->
  match apply_redaction_rules r b with
  | Ok r' => get k r' = Some (VStr (category_mask c (str v)))
  | Raise e =>
      e = TypeError /\ b = true
      /\ 2 <= count_combinatorial_elements r /\ pair_not_text r = true
  end.
Proof.
  intros W G M F. rewrite (apply_redaction_rules_spec r b W).
  destruct (b && (2 <=? count_combinatorial_elements r) && pair_not_text r)
    eqn:E.
  - apply andb_prop in E. destruct E as [E E3].
    apply andb_prop in E. destruct E as [E1 E2].
    apply Nat.leb_le in E2. auto.
  - rewrite get_entrywise, G. simpl option_map. f_equal.
    unfold redacted_value.
    rewrite (standalone_mask_category c k v M (pattern_triggers c _ F)).
    destruct (b && (2 <=? count_combinatorial_elements r)); [|reflexivity].
    apply quasi_mask_other. apply standalone_key_not_quasi.
    apply (category_fields_standalone c). exact M.
Qed.

Lemma unconditional_pass_masks_standalone_fields_witness :
  match apply_redaction_rules numeric_phone_record true with
  | Ok r' =>
      get "Mobile" r'
      = Some (VStr (category_mask PHONE (str (VInt 9876543210))))
  | Raise e =>
      e = TypeError /\ true = true
      /\ 2 <= count_combinatorial_elements numeric_phone_record
      /\ pair_not_text numeric_phone_record = true
  end.
Proof.
  apply (unconditional_pass_masks_standalone_fields
           numeric_phone_record "Mobile" (VInt 9876543210) PHONE true).
  - apply wf_check. vm_compute. reflexivity.
  - vm_compute. reflexivity.
  - vm_compute. reflexivity.
  - vm_compute. reflexivity.
Defined.

Example numeric_phone_record_redacted :
  apply_redaction_rules numeric_phone_record false
  = Ok [("Mobile" : text, VStr "98XXXXXX10"); ("name" : text, VStr "Asha Verma");
        ("email" : text, VStr "asha@mail.com")]
  /\ apply_redaction_rules numeric_phone_record true
     = Ok [("Mobile" : text, VStr "98XXXXXX10");
           ("name" : text, VStr "AXXX VXXXX");
           ("email" : text, VStr "asXXX@mail.com")].
Proof. vm_compute. split; reflexivity. Qed.

(** C2.  The verdict is the disjunction: [is_pii] is true exactly when the
    standalone detector returns true or the combinatorial score is at least
    2.  It is the flag a processed row carries; a row whose redaction raises
    carries none, and its verdict was true. *)
Theorem verdict_is_disjunction (r : record) :
  wf_record r ->
  (is_sensitive_record r = true
   <-> contains_individual_pii r = true \/ 2 <= count_combinatorial_elements r)
  /\ match process_record r with
     | Ok (_, is_pii) =>
         is_pii = true
         <-> contains_individual_pii r = true
             \/ 2 <= count_combinatorial_elements r
     | Raise _ => is_sensitive_record r = true /\ pair_not_text r = true
     end.
Proof.
  intros W.
  assert (V : is_sensitive_record r = true
              <-> contains_individual_pii r = true
                  \/ 2 <= count_combinatorial_elements r).
  { unfold is_sensitive_record. rewrite orb_true_iff, Nat.leb_le. tauto. }
  split; [exact V|].
  unfold process_record.
  rewrite (apply_redaction_rules_spec r (is_sensitive_record r) W).
  destruct (is_sensitive_record r
            && (2 <=? count_combinatorial_elements r) && pair_not_text r)
    eqn:E; cbn [bind].
  - apply andb_prop in E. destruct E as [E E2].
    apply andb_prop in E. destruct E as [E1 _]. auto.
  - exact V.
Qed.

Lemma verdict_is_disjunction_witness :
  (is_sensitive_record name_email_record = true
   <-> contains_individual_pii name_email_record = true
       \/ 2 <= count_combinatorial_elements name_email_record)
  /\ match process_record name_email_record with
     | Ok (_, is_pii) =>
         is_pii = true
         <-> contains_individual_pii name_email_record = true
             \/ 2 <= count_combinatorial_elements name_email_record
     | Raise _ =>
         is_sensitive_record name_email_record = true
         /\ pair_not_text name_email_record = true
     end.
Proof.
  apply (verdict_is_disjunction name_email_record).
  apply wf_check. vm_compute. reflexivity.
Defined.

(** C3 fails on the code.  With a number as given name, both name fields
    truthy and a second signal, the verdict is true and the conditional pass
    subscripts the number: [apply_redaction_rules] raises [TypeError], and so
    does the processing of the row. *)
Theorem numeric_given_name_raises :
  wf_record numeric_name_record
  /\ is_sensitive_record numeric_name_record = true
  /\ apply_redaction_rules numeric_name_record true = Raise TypeError
  /\ process_record numeric_name_record = Raise TypeError.
Proof.
  split; [apply wf_check; vm_compute; reflexivity|].
  vm_compute. repeat split; reflexivity.
Qed.

(** Apart from that input the function is total on dicts. *)
Lemma apply_redaction_rules_returns (r : record) (b : bool) :
  wf_record r ->
  b && (2 <=? count_combinatorial_elements r) && pair_not_text r = false ->
  exists r', apply_redaction_rules r b = Ok r'.
Proof.
  intros W H. rewrite (apply_redaction_rules_spec r b W), H. eauto.
Qed.

Lemma split_once_none (sep : ascii) (s : text) :
  ~ In sep s -> split_once sep s = None.
Proof.
  induction s as [|c t IH]; simpl; intros N; auto.
  destruct (Ascii.eqb c sep) eqn:E.
  - apply Ascii.eqb_eq in E. subst. tauto.
  - rewrite IH; tauto.
Qed.

Lemma split_once_first (sep : ascii) (a b : text) :
  ~ In sep a -> split_once sep (a ++ sep :: b) = Some (a, b).
Proof.
  induction a as [|c t IH]; simpl; intros N.
  - rewrite Ascii.eqb_refl. reflexivity.
  - destruct (Ascii.eqb c sep) eqn:E.
    + apply Ascii.eqb_eq in E. subst. tauto.
    + rewrite IH; tauto.
Qed.

(** A text with the separator is a text before its first occurrence, the
    separator and the rest. *)
Lemma first_occurrence (sep : ascii) (s : text) :
  In sep s -> exists a b, s = a ++ sep :: b /\ ~ In sep a.
Proof.
  induction s as [|c t IH]; simpl; intros H; [tauto|].
  destruct (ascii_dec c sep) as [E|E].
  - subst. exists [], t. simpl. tauto.
  - destruct H as [H|H]; [congruence|].
    destruct (IH H) as [a [b [Hs Hn]]]. subst t.
    exists (c :: a), b. simpl. split; [reflexivity|]. tauto.
Qed.

(** C8.  On a text [s] without ['@'] the payment-handle mask returns the
    redaction sentinel and the email mask returns [s] unchanged; on a text
    with local part [local_part] (the text before the first ['@']) and domain
    [domain_part], both keep the domain and replace the local part by [XX]
    when it has at most 2 characters and by its first 2 characters and [XXX]
    otherwise. *)
Theorem handle_and_email_masks
  (s local_part domain_part : text)
  (Hs : ~ In "@"%char s) (Hl : ~ In "@"%char local_part) :
  obfuscate_upi_identifier s = REDACTED_PII
  /\ obfuscate_email_address s = s
  /\ obfuscate_upi_identifier (local_part ++ "@" ++ domain_part)
     = masked_local local_part ++ "@" ++ domain_part
  /\ obfuscate_email_address (local_part ++ "@" ++ domain_part)
     = masked_local local_part ++ "@" ++ domain_part.
Proof.
  unfold obfuscate_upi_identifier, obfuscate_email_address, masked_local.
  rewrite (split_once_none "@" s Hs).
  change (local_part ++ "@" ++ domain_part)
    with (local_part ++ "@"%char :: domain_part).
  rewrite (split_once_first "@" local_part domain_part Hl).
  repeat split; reflexivity.
Qed.

Lemma handle_and_email_masks_witness :
  obfuscate_upi_identifier "asha.okaxis" = REDACTED_PII
  /\ obfuscate_email_address "asha.okaxis" = ("asha.okaxis" : text)
  /\ obfuscate_upi_identifier ("as" ++ "@" ++ "ok@axis")
     = masked_local "as" ++ "@" ++ "ok@axis"
  /\ obfuscate_email_address ("as" ++ "@" ++ "ok@axis")
     = masked_local "as" ++ "@" ++ "ok@axis".
Proof.
  apply (handle_and_email_masks "asha.okaxis" "as" "ok@axis").
  - vm_compute. intuition discriminate.
  - vm_compute. intuition discriminate.
Defined.

Lemma count_if_le (b : bool) (n : nat) : count_if b n <= n + 1.
Proof. unfold count_if. destruct b; lia. Qed.

Lemma score_at_most_five (r : record) : count_combinatorial_elements r <= 5.
Proof.
  unfold count_combinatorial_elements, count_if.
  destruct (has_complete_name r), (has_email_address r),
    (contains_complete_address r),
    (has_device_id r && has_user_context r),
    (has_ip_address r && has_user_context r); simpl; lia.
Qed.

(** C6.  The combinatorial score of a dict lies between 0 and 5, and when it
    is exactly 1 the conditional pass does not run, whatever [is_pii] is:
    [apply_redaction_rules] returns what the unconditional pass returns, and
    the name, given/surname, email, address, IP and device-id fields hold
    their original values. *)
Theorem score_bounded_and_single_signal_untouched (r : record) (b : bool) :
  wf_record r ->
  0 <= count_combinatorial_elements r <= 5
  /\ (count_combinatorial_elements r = 1 ->
      exists r',
        apply_redaction_rules r b = Ok r'
        /\ unconditional_pass r = Ok r'
        /\ forall k, In k quasi_fields -> get k r' = get k r).
Proof.
  intros W. split; [split; [lia | apply score_at_most_five]|].
  intros S1. exists (entrywise standalone_mask r).
  rewrite (apply_redaction_rules_spec r b W), S1.
  change (2 <=? 1) with false. rewrite andb_false_r. cbn [andb].
  rewrite (unconditional_pass_entrywise r W).
  split; [|split; [reflexivity|]].
  - f_equal. apply entrywise_ext. intros k v _. unfold redacted_value.
    rewrite S1. change (2 <=? 1) with false. rewrite andb_false_r.
    reflexivity.
  - intros k Hk. apply get_entrywise_fixed. intros v.
    apply standalone_mask_other. apply quasi_fields_not_standalone. exact Hk.
Qed.

Lemma score_bounded_and_single_signal_untouched_witness :
  0 <= count_combinatorial_elements address_record <= 5
  /\ exists r',
       apply_redaction_rules address_record true = Ok r'
       /\ unconditional_pass address_record = Ok r'
       /\ forall k, In k quasi_fields -> get k r' = get k address_record.
Proof.
  destruct (score_bounded_and_single_signal_untouched address_record true)
    as [Bounds Single].
  - apply wf_check. vm_compute. reflexivity.
  - split; [exact Bounds|]. apply Single. vm_compute. reflexivity.
Defined.

(** Without any field the conditional pass assigns to, no signal is true. *)
Lemma score_zero_without_quasi_fields (r : record) :
  (forall f, In f quasi_fields -> get f r = None) ->
  count_combinatorial_elements r = 0.
Proof.
  intros H.
  unfold count_combinatorial_elements, has_complete_name, has_email_address,
    contains_complete_address, has_device_id, has_ip_address, present, contains.
  unfold FULL_NAME_FIELDS, EMAIL_RELATED_FIELDS, LOCATION_FIELDS,
    HARDWARE_ID_FIELDS, NETWORK_IP_FIELDS, GIVEN_NAME_FIELD, SURNAME_FIELD.
  cbn [existsb flat_map fold_left].
  repeat match goal with
         | |- context [get ?f r] =>
             rewrite (H f)
               by (vm_compute; repeat (try (left; reflexivity); right))
         end.
  reflexivity.
Qed.

Lemma taxonomy_recognized (f : text) : In f taxonomy -> recognized f = true.
Proof.
  intros H. vm_compute in H.
  repeat (destruct H as [H|H]; [subst f; vm_compute; reflexivity|]).
  destruct H.
Qed.

Section Unrecognized.

Variable r : record.
Hypothesis no_field_recognized :
  forall k, In k (keys r) -> recognized k = false.

Lemma unrecognized_get (f : text) : In f taxonomy -> get f r = None.
Proof.
  intros H. destruct (get f r) as [v|] eqn:G; auto.
  apply get_key in G. apply no_field_recognized in G.
  rewrite (taxonomy_recognized f H) in G. discriminate.
Qed.

Lemma unrecognized_not_standalone (k : text) (v : value) :
  In (k, v) r -> mem (lower k) standalone_fields = false.
Proof.
  intros H.
  assert (R : recognized k = false).
  { apply no_field_recognized. change k with (fst (k, v)). apply in_map.
    exact H. }
  unfold recognized, taxonomy, mem in R. rewrite existsb_app in R.
  apply orb_false_elim in R. tauto.
Qed.

Lemma unrecognized_any_field (fields : list text) (pattern : regex) :
  (forall l, mem l fields = true -> mem l standalone_fields = true) ->
  any_field fields pattern r = false.
Proof.
  intros Sub. unfold any_field.
  destruct (existsb _ r) eqn:E; auto.
  apply existsb_exists in E. destruct E as [[k v] [Hin H]]. simpl in H.
  apply andb_prop in H. destruct H as [H _]. apply Sub in H.
  rewrite (unrecognized_not_standalone k v Hin) in H. discriminate.
Qed.

Lemma unrecognized_not_individual : contains_individual_pii r = false.
Proof.
  unfold contains_individual_pii.
  rewrite (unrecognized_any_field PHONE_RELATED_FIELDS),
    (unrecognized_any_field AADHAAR_RELATED_FIELDS),
    (unrecognized_any_field PASSPORT_RELATED_FIELDS),
    (unrecognized_any_field UPI_RELATED_FIELDS); auto.
  - apply (category_fields_standalone PAYMENT_HANDLE).
  - apply (category_fields_standalone PASSPORT).
  - apply (category_fields_standalone NATIONAL_ID).
  - apply (category_fields_standalone PHONE).
Qed.

Lemma unrecognized_score : count_combinatorial_elements r = 0.
Proof.
  apply score_zero_without_quasi_fields. intros f Hf.
  apply unrecognized_get. unfold taxonomy. apply in_or_app. right. exact Hf.
Qed.

End Unrecognized.

(** C7.  On a dict with no field whose name is recognized by any taxonomy
    category the verdict is false and [apply_redaction_rules] returns the
    record itself, for either flag; a processed row carries the input record
    and the verdict false. *)
Theorem unrecognized_record_is_untouched (r : record) :
  wf_record r ->
  (forall k, In k (keys r) -> recognized k = false) ->
  is_sensitive_record r = false
  /\ (forall b, apply_redaction_rules r b = Ok r)
  /\ process_record r = Ok (r, false).
Proof.
  intros W U.
  assert (V : is_sensitive_record r = false).
  { unfold is_sensitive_record.
    rewrite (unrecognized_not_individual r U), (unrecognized_score r U).
    reflexivity. }
  assert (A : forall b, apply_redaction_rules r b = Ok r).
  { intros b. rewrite (apply_redaction_rules_spec r b W).
    rewrite (unrecognized_score r U). change (2 <=? 0) with false.
    rewrite andb_false_r. cbn [andb]. f_equal. apply entrywise_id.
    intros k v Hin. unfold redacted_value.
    rewrite (unrecognized_score r U). change (2 <=? 0) with false.
    rewrite andb_false_r. apply standalone_mask_other.
    apply (unrecognized_not_standalone r U k v Hin). }
  split; [exact V|]. split; [exact A|].
  unfold process_record. rewrite V, A. reflexivity.
Qed.

Lemma unrecognized_record_is_untouched_witness :
  is_sensitive_record order_record = false
  /\ (forall b, apply_redaction_rules order_record b = Ok order_record)
  /\ process_record order_record = Ok (order_record, false).
Proof.
  apply (unrecognized_record_is_untouched order_record).
  - apply wf_check. vm_compute. reflexivity.
  - intros k H. vm_compute in H.
    repeat (destruct H as [H|H]; [subst k; vm_compute; reflexivity|]).
    destruct H.
Defined.

(** *** Which fields a call selects for masking *)

Lemma standalone_mask_unselected (k : text) (v : value) :
  selected_unconditional k v = false -> standalone_mask k v = v.
Proof.
  unfold selected_unconditional, standalone_mask.
  destruct v as [s|z|]; auto; intros H; cbv zeta;
    apply orb_false_elim in H; destruct H as [H H4];
    apply orb_false_elim in H; destruct H as [H H3];
    apply orb_false_elim in H; destruct H as [H1 H2];
    rewrite H1, H2, H3, H4; reflexivity.
Qed.

Lemma quasi_mask_unselected (r : record) (k : text) (v : value) :
  selected_conditional r k v = false -> quasi_mask (pair_present r) k v = v.
Proof.
  unfold selected_conditional, quasi_mask. intros H.
  apply orb_false_elim in H. destruct H as [H H4].
  apply orb_false_elim in H. destruct H as [H H3].
  apply orb_false_elim in H. destruct H as [H1 H2].
  unfold mem in H4. repeat rewrite existsb_app in H4. fold (mem k) in H4.
  unfold email_upd, full_name_upd, truthy_upd.
  destruct (mem k EMAIL_RELATED_FIELDS).
  { rewrite <- andb_assoc in H1. simpl in H1. rewrite H1. reflexivity. }
  destruct (mem k FULL_NAME_FIELDS).
  { rewrite <- andb_assoc in H2. simpl in H2. rewrite H2. reflexivity. }
  destruct (text_eqb k GIVEN_NAME_FIELD || text_eqb k SURNAME_FIELD).
  { simpl in H3. rewrite H3. reflexivity. }
  unfold mem.
  destruct (existsb (text_eqb k) LOCATION_FIELDS).
  { simpl in H4. rewrite H4. reflexivity. }
  destruct (existsb (text_eqb k) NETWORK_IP_FIELDS).
  { simpl in H4. rewrite H4. reflexivity. }
  destruct (existsb (text_eqb k) HARDWARE_ID_FIELDS).
  { simpl in H4. rewrite H4. reflexivity. }
  reflexivity.
Qed.

Lemma redacted_value_unselected (r : record) (b : bool) (k : text) (v : value) :
  selected r b k v = false -> redacted_value r b k v = v.
Proof.
  unfold selected, redacted_value. intros H.
  apply orb_false_elim in H. destruct H as [H1 H2].
  rewrite (standalone_mask_unselected k v H1).
  destruct (b && (2 <=? count_combinatorial_elements r)); [|reflexivity].
  simpl in H2. apply quasi_mask_unselected. exact H2.
Qed.

(** C9.  The record [apply_redaction_rules] returns for a dict has the
    fields of its input, in the same order, and every field that neither
    pass selects for masking holds its original value.  The call returns a
    record for every input but the one on which the given-name/surname
    assignment raises. *)
Theorem redaction_preserves_shape_and_unselected_fields
  (r : record) (b : bool) :
  wf_record r ->
  match apply_redaction_rules r b with
  | Ok r' =>
      keys r' = keys r
      /\ forall k v,
           get k r = Some v -> selected r b k v = false -> get k r' = Some v
  | Raise e =>
      e = TypeError /\ b = true
      /\ 2 <= count_combinatorial_elements r /\ pair_not_text r = true
  end.
Proof.
  intros W. rewrite (apply_redaction_rules_spec r b W).
  destruct (b && (2 <=? count_combinatorial_elements r) && pair_not_text r)
    eqn:E.
  - apply andb_prop in E. destruct E as [E E3].
    apply andb_prop in E. destruct E as [E1 E2].
    apply Nat.leb_le in E2. auto.
  - split; [apply keys_entrywise|].
    intros k v G U. rewrite get_entrywise, G. simpl option_map.
    rewrite (redacted_value_unselected r b k v U). reflexivity.
Qed.

Lemma redaction_preserves_shape_and_unselected_fields_witness :
  match apply_redaction_rules mixed_record true with
  | Ok r' =>
      keys r' = keys mixed_record
      /\ forall k v,
           get k mixed_record = Some v ->
           selected mixed_record true k v = false -> get k r' = Some v
  | Raise e =>
      e = TypeError /\ true = true
      /\ 2 <= count_combinatorial_elements mixed_record
      /\ pair_not_text mixed_record = true
  end.
Proof.
  apply (redaction_preserves_shape_and_unselected_fields mixed_record true).
  apply wf_check. vm_compute. reflexivity.
Defined.

Example mixed_record_redacted :
  apply_redaction_rules mixed_record true
  = Ok [("record_no" : text, VInt 17); ("name" : text, VStr "AXXX VXXXX");
        ("Email" : text, VStr "asha@mail.com");
        ("phone" : text, VStr "98XXXXXX10");
        ("ip" : text, VStr "10.XXX.XXX.7"); ("city" : text, VNull)].
Proof. vm_compute. reflexivity. Qed.

(* ================================================================== *)
(** ** Case of field names *)

(** C4 fails as stated: the scorer's email check does not recognize a field
    whose name is spelled in another case, and the score changes with the
    case of a field name. *)
Lemma scorer_checks_depend_on_case :
  ~ (forall k v,
       mem (lower k) EMAIL_RELATED_FIELDS = true ->
       truthy v = true -> found email_pattern (str v) = true ->
       has_email_address [(k, v)] = true)
  /\ ~ (forall r1 r2,
          Forall2 same_up_to_case r1 r2 ->
          count_combinatorial_elements r1 = count_combinatorial_elements r2).
Proof.
  split.
  - intros H.
    specialize (H ("EMAIL" : text) (VStr "asha@mail.com")).
    vm_compute in H. specialize (H eq_refl eq_refl eq_refl). discriminate.
  - intros H. specialize (H upper_email_record lower_email_record).
    assert (F : Forall2 same_up_to_case upper_email_record lower_email_record).
    { repeat constructor. }
    apply H in F. vm_compute in F. discriminate.
Qed.

Lemma any_field_up_to_case (fields : list text) (pattern : regex)
  (r1 r2 : record) :
  Forall2 same_up_to_case r1 r2 ->
  any_field fields pattern r1 = any_field fields pattern r2.
Proof.
  unfold any_field. induction 1 as [|[k1 v1] [k2 v2] r1 r2 [Hk Hv] _ IH]; simpl.
  - reflexivity.
  - simpl in Hk, Hv. subst v2. rewrite Hk, IH. reflexivity.
Qed.

Lemma standalone_mask_up_to_case (k1 k2 : text) (v : value) :
  lower k1 = lower k2 -> standalone_mask k1 v = standalone_mask k2 v.
Proof. intros H. unfold standalone_mask. rewrite H. reflexivity. Qed.

Lemma score_reads_exact_names (r1 r2 : record) :
  (forall f, In f scorer_fields -> get f r1 = get f r2) ->
  count_combinatorial_elements r1 = count_combinatorial_elements r2.
Proof.
  intros H.
  unfold count_combinatorial_elements, has_user_context, has_complete_name,
    has_email_address, contains_complete_address, has_device_id,
    has_ip_address, present, contains, get_text.
  unfold FULL_NAME_FIELDS, EMAIL_RELATED_FIELDS, LOCATION_FIELDS,
    HARDWARE_ID_FIELDS, NETWORK_IP_FIELDS, PHONE_RELATED_FIELDS,
    GIVEN_NAME_FIELD, SURNAME_FIELD.
  cbn [existsb flat_map fold_left].
  repeat match goal with
         | |- context [get ?f r1] =>
             rewrite (H f)
               by (vm_compute; repeat (try (left; reflexivity); right))
         end.
  reflexivity.
Qed.

(** C4, amended.  The standalone detector and the unconditional pass
    compare lowercased field names: two dicts that differ only in the case of
    field names ([r1], [r2]) get the same detector result and the same values
    from the unconditional pass.  Every check of the combinatorial scorer
    (full name, given/surname, email, address with city/state/pin_code, device
    id, network address, phone context) looks the field up under its exact
    lowercase spelling: two records that agree on those lookups ([r3], [r4])
    get the same score, whatever other fields they hold. *)
Theorem case_insensitive_detector_case_sensitive_scorer
  (r1 r2 r3 r4 : record) :
  wf_record r1 -> wf_record r2 ->
  Forall2 same_up_to_case r1 r2 ->
  (forall f, In f scorer_fields -> get f r3 = get f r4) ->
  contains_individual_pii r1 = contains_individual_pii r2
  /\ (exists r1' r2',
        unconditional_pass r1 = Ok r1' /\ unconditional_pass r2 = Ok r2'
        /\ map snd r1' = map snd r2')
  /\ count_combinatorial_elements r3 = count_combinatorial_elements r4.
Proof.
  intros W1 W2 F S. split; [|split].
  - unfold contains_individual_pii.
    rewrite (any_field_up_to_case PHONE_RELATED_FIELDS _ r1 r2 F),
      (any_field_up_to_case AADHAAR_RELATED_FIELDS _ r1 r2 F),
      (any_field_up_to_case PASSPORT_RELATED_FIELDS _ r1 r2 F),
      (any_field_up_to_case UPI_RELATED_FIELDS _ r1 r2 F).
    reflexivity.
  - exists (entrywise standalone_mask r1), (entrywise standalone_mask r2).
    split; [apply unconditional_pass_entrywise; exact W1|].
    split; [apply unconditional_pass_entrywise; exact W2|].
    clear W1 W2.
    induction F as [|[k1 v1] [k2 v2] r1 r2 [Hk Hv] _ IH]; simpl.
    + reflexivity.
    + simpl in Hk, Hv. subst v2.
      rewrite (standalone_mask_up_to_case k1 k2 v1 Hk).
      f_equal. exact IH.
  - apply score_reads_exact_names. exact S.
Qed.

Lemma case_insensitive_detector_case_sensitive_scorer_witness :
  contains_individual_pii upper_phone_record
  = contains_individual_pii lower_phone_record
  /\ (exists r1' r2',
        unconditional_pass upper_phone_record = Ok r1'
        /\ unconditional_pass lower_phone_record = Ok r2'
        /\ map snd r1' = map snd r2')
  /\ count_combinatorial_elements upper_email_record
     = count_combinatorial_elements [("name" : text, VStr "Asha Verma")].
Proof.
  apply (case_insensitive_detector_case_sensitive_scorer
           upper_phone_record lower_phone_record
           upper_email_record [("name" : text, VStr "Asha Verma")]).
  - apply wf_check. vm_compute. reflexivity.
  - apply wf_check. vm_compute. reflexivity.
  - repeat constructor.
  - intros f Hf. vm_compute in Hf.
    repeat (destruct Hf as [Hf|Hf]; [subst f; vm_compute; reflexivity|]).
    destruct Hf.
Defined.

(* ================================================================== *)
(** ** Word-bounded runs, by position and by decomposition *)

Section BoundedRuns.

Variable p : ascii -> bool.
Variable n' : nat.
Hypothesis p_word : forall c, p c = true -> is_word c = true.

Let n := S n'.

Lemma skipn_length_app (pre rest : text) :
  skipn (length pre) (pre ++ rest) = rest.
Proof. induction pre; simpl; auto. Qed.

Lemma firstn_length_app (code rest : text) :
  firstn (length code) (code ++ rest) = code.
Proof. induction code; simpl; congruence. Qed.

Lemma last_char_app (pre rest : text) :
  prev_at None (pre ++ rest) (length pre) = last_char pre.
Proof.
  unfold last_char, prev_at. destruct (length pre) as [|m] eqn:E; auto.
  apply nth_error_app1. lia.
Qed.

(** The run [code] between [pre] and [post]: the pattern matches there
    exactly when neither neighbour is a word character. *)
Lemma bounded_at_decomposed (pre code post : text) :
  length code = n -> forallb p code = true ->
  match_at [Bnd; exactly p n; Bnd] (pre ++ code ++ post) (length pre)
  = if negb (word_opt (last_char pre)) && negb (word_opt (hd_error post))
    then Some (n + 0) else None.
Proof.
  intros L F. unfold match_at.
  rewrite match_here_bounded, last_char_app, skipn_length_app.
  assert (R : run_length p (Some n) (code ++ post) = n).
  { apply run_length_full. rewrite length_app. split; [lia|].
    rewrite <- L, firstn_length_app. exact F. }
  rewrite R, Nat.eqb_refl.
  assert (B1 : at_boundary (last_char pre) (code ++ post)
               = negb (word_opt (last_char pre))).
  { unfold at_boundary. destruct code as [|c code']; [discriminate|].
    simpl in F. apply andb_prop in F. destruct F as [Fc _].
    simpl. rewrite (p_word c Fc). apply xorb_true_r. }
  assert (B2 : at_boundary (prev_at (last_char pre) (code ++ post) n)
                 (skipn n (code ++ post))
               = negb (word_opt (hd_error post))).
  { rewrite <- L at 2. rewrite skipn_length_app.
    unfold n, prev_at. rewrite nth_error_app1 by (unfold n in L; lia).
    destruct (nth_error code n') as [c|] eqn:E.
    - unfold at_boundary. simpl.
      assert (Pc : p c = true).
      { apply nth_error_In in E.
        rewrite forallb_forall in F. apply F. exact E. }
      rewrite (p_word c Pc). reflexivity.
    - apply nth_error_None in E. unfold n in L. lia. }
  rewrite B1, B2, andb_true_r. reflexivity.
Qed.

(** A match at position [j] is such a run after the first [j] characters. *)
Lemma bounded_at_inv (s : text) (j x : nat) :
  match_at [Bnd; exactly p n; Bnd] s j = Some x ->
  exists pre code post,
    s = pre ++ code ++ post /\ length pre = j /\ length code = n
    /\ forallb p code = true
    /\ word_opt (last_char pre) = false
    /\ word_opt (hd_error post) = false
    /\ firstn x (skipn j s) = code.
Proof.
  intros M. pose proof M as M0. unfold match_at in M.
  rewrite match_here_bounded in M.
  destruct (at_boundary (prev_at None s j) (skipn j s)); [|discriminate].
  destruct (run_length p (Some n) (skipn j s) =? n) eqn:R; [|discriminate].
  apply Nat.eqb_eq in R. apply run_length_full in R. destruct R as [Ln F].
  rewrite length_skipn in Ln.
  assert (Lj : j <= length s) by (unfold n in Ln; lia).
  set (pre := firstn j s). set (rest := skipn j s).
  set (code := firstn n rest). set (post := skipn n rest).
  assert (Es : s = pre ++ code ++ post).
  { unfold code, post, pre, rest. rewrite firstn_skipn, firstn_skipn.
    reflexivity. }
  assert (Lp : length pre = j) by (apply firstn_length_le; exact Lj).
  assert (Lc : length code = n).
  { apply firstn_length_le. unfold rest. rewrite length_skipn. exact Ln. }
  assert (X : x = n + 0).
  { cbn [andb] in M.
    destruct (at_boundary (prev_at (prev_at None s j) (skipn j s) n)
                (skipn n (skipn j s))); [|discriminate].
    inversion M. reflexivity. }
  rewrite Es in M0. rewrite <- Lp in M0.
  rewrite (bounded_at_decomposed pre code post Lc F) in M0.
  destruct (word_opt (last_char pre)) eqn:W1; [discriminate|].
  destruct (word_opt (hd_error post)) eqn:W2; [discriminate|].
  exists pre, code, post. subst x. rewrite Nat.add_0_r.
  repeat split; auto.
Qed.

End BoundedRuns.

Lemma digit_is_word (c : ascii) : is_digit c = true -> is_word c = true.
Proof.
  intros H. unfold is_word, is_alnum. rewrite H.
  rewrite orb_true_r. reflexivity.
Qed.

(* ================================================================== *)
(** ** Address masking *)

Lemma postal_match (pre code post : text) :
  postal_code_at pre code post ->
  match_at postal_code_pattern (pre ++ code ++ post) (length pre)
  = Some (6 + 0).
Proof.
  intros [L [F [W1 W2]]]. unfold postal_code_pattern.
  rewrite (bounded_at_decomposed is_digit 5 digit_is_word pre code post L F).
  rewrite W1, W2. reflexivity.
Qed.

Lemma search_postal_some (s : text) (j : nat) (m : text) :
  search postal_code_pattern s = Some (j, m) -> leftmost_postal_code s m.
Proof.
  intros H. apply search_some in H. destruct H as [x [Lj [M [Hm Least]]]].
  apply (bounded_at_inv is_digit 5 digit_is_word) in M.
  destruct M as [pre [code [post [Es [Lp [Lc [F [W1 [W2 Hc]]]]]]]]].
  assert (Em : m = code) by congruence. clear Hm Hc. subst m.
  exists pre, post. split; [exact Es|]. split; [repeat split; assumption|].
  intros pre' code' post' Es' P'.
  destruct (Nat.le_gt_cases (length pre) (length pre')) as [C|C]; auto.
  pose proof (postal_match pre' code' post' P') as M'. rewrite <- Es' in M'.
  rewrite Least in M' by lia. discriminate.
Qed.

Lemma search_postal_none (s : text) :
  search postal_code_pattern s = None -> ~ has_postal_code s.
Proof.
  intros H [pre [code [post [Es P]]]].
  pose proof (postal_match pre code post P) as M. rewrite <- Es in M.
  rewrite (search_none _ _ H) in M; [discriminate|].
  subst s. rewrite length_app. lia.
Qed.

Lemma search_postal_leftmost (s code : text) :
  leftmost_postal_code s code -> group0 postal_code_pattern s = Some code.
Proof.
  intros [pre [post [Es [P Least]]]]. unfold group0.
  destruct (search postal_code_pattern s) as [[j m]|] eqn:E.
  - simpl. f_equal.
    pose proof (search_postal_some s j m E) as [pre0 [post0 [Es0 [P0 Least0]]]].
    pose proof (Least pre0 m post0 Es0 P0) as L1.
    pose proof (Least0 pre code post Es P) as L2.
    assert (L : length pre0 = length pre) by lia.
    destruct P as [Lc _]. destruct P0 as [Lm _].
    rewrite Es in Es0.
    assert (S1 : skipn (length pre) (pre ++ code ++ post) = code ++ post)
      by apply skipn_length_app.
    assert (S2 : skipn (length pre) (pre ++ code ++ post) = m ++ post0).
    { rewrite Es0, <- L. apply skipn_length_app. }
    rewrite S1 in S2.
    apply (f_equal (firstn 6)) in S2.
    rewrite <- Lc in S2 at 1. rewrite <- Lm in S2 at 1.
    rewrite !firstn_length_app in S2. congruence.
  - exfalso. apply (search_postal_none s E). exists pre, code, post. auto.
Qed.

(** C5 fails as stated: a shorter input than 3 characters keeps none of its
    characters, and of two postal codes only the first is in the output. *)
Lemma short_address_keeps_no_character :
  ~ (forall s, exists suffix,
       obfuscate_physical_address s = firstn 3 s ++ "XXX" ++ "..." ++ suffix)
  /\ ~ (forall pre code post,
          postal_code_at pre code post ->
          exists before,
            obfuscate_physical_address (pre ++ code ++ post)
            = before ++ ", " ++ code).
Proof.
  split.
  - intros H. destruct (H ("ab" : text)) as [suffix E].
    vm_compute in E. discriminate.
  - intros H.
    destruct (H ("110001 " : text) ("560001" : text) ([] : text))
      as [before E].
    { vm_compute. repeat split; reflexivity. }
    apply (f_equal (@rev ascii)) in E. rewrite rev_app_distr in E.
    vm_compute in E. discriminate.
Qed.

(** C5, amended.  On an input of fewer than 3 characters the address mask
    returns [XXX...] and keeps no character of the input; on a longer input
    it returns the first 3 characters, [XXX] and [...], and possibly a
    suffix.  On ASCII text the suffix is known: when the input has a postal
    code (six digits with no word character on either side) it is [", "] and
    the leftmost postal code of the input, verbatim, and there is none
    otherwise. *)
Theorem address_mask_shape (s : text) :
  (length s < 3 -> obfuscate_physical_address s = "XXX...")
  /\ (3 <= length s ->
      exists suffix,
        obfuscate_physical_address s
        = firstn 3 s ++ "XXX" ++ "..." ++ suffix)
  /\ (is_ascii_text s = true ->
      (3 <= length s -> ~ has_postal_code s ->
       obfuscate_physical_address s = firstn 3 s ++ "XXX" ++ "...")
      /\ (forall code,
            leftmost_postal_code s code ->
            obfuscate_physical_address s
            = firstn 3 s ++ "XXX" ++ "..." ++ ", " ++ code)
      /\ (has_postal_code s -> exists code, leftmost_postal_code s code)).
Proof.
  assert (N : ~ has_postal_code s ->
              group0 postal_code_pattern s = None).
  { intros Hn. unfold group0.
    destruct (search postal_code_pattern s) as [[j m]|] eqn:E; auto.
    exfalso. apply Hn. apply search_postal_some in E.
    destruct E as [pre [post [Es [P _]]]]. exists pre, m, post. auto. }
  assert (Long : has_postal_code s -> 6 <= length s).
  { intros [pre [code [post [Es [L _]]]]]. subst s.
    rewrite !length_app. lia. }
  split; [|split; [|intros _; split; [|split]]].
  - intros L. unfold obfuscate_physical_address.
    rewrite N by (intros H; apply Long in H; lia).
    assert (E : (3 <=? length s) = false) by (apply Nat.leb_gt; lia).
    rewrite E. reflexivity.
  - intros L. unfold obfuscate_physical_address.
    assert (E : (3 <=? length s) = true) by (apply Nat.leb_le; lia).
    rewrite E. rewrite <- !app_assoc. eauto.
  - intros L Hn. unfold obfuscate_physical_address. rewrite (N Hn).
    assert (E : (3 <=? length s) = true) by (apply Nat.leb_le; lia).
    rewrite E. rewrite <- !app_assoc. reflexivity.
  - intros code H. unfold obfuscate_physical_address.
    rewrite (search_postal_leftmost s code H).
    assert (L : 6 <= length s).
    { apply Long. destruct H as [pre [post [Es [P _]]]].
      exists pre, code, post. auto. }
    assert (E : (3 <=? length s) = true) by (apply Nat.leb_le; lia).
    rewrite E.
    destruct H as [pre [post [_ [[Lc _] _]]]].
    destruct code as [|c code]; [discriminate|].
    rewrite <- !app_assoc. reflexivity.
  - intros H. destruct (search postal_code_pattern s) as [[j m]|] eqn:E.
    + exists m. apply (search_postal_some s j m E).
    + exfalso. apply (search_postal_none s E H).
Qed.

Lemma address_mask_shape_witness :
  obfuscate_physical_address "ab" = ("XXX..." : text)
  /\ obfuscate_physical_address "221B Baker Street"
     = firstn 3 ("221B Baker Street" : text) ++ "XXX" ++ "..."
  /\ obfuscate_physical_address "12 MG Road, 560001 or 110001"
     = firstn 3 ("12 MG Road, 560001 or 110001" : text)
       ++ "XXX" ++ "..." ++ ", " ++ "560001".
Proof.
  destruct (address_mask_shape "ab") as [Short _].
  destruct (address_mask_shape "221B Baker Street") as [_ [_ Plain]].
  destruct (address_mask_shape "12 MG Road, 560001 or 110001")
    as [_ [_ Coded]].
  split; [apply Short; vm_compute; lia|].
  split.
  - destruct Plain as [Plain _]; [vm_compute; reflexivity|].
    apply Plain; [vm_compute; lia|].
    intros H. apply (search_postal_none "221B Baker Street"); [|exact H].
    vm_compute. reflexivity.
  - destruct Coded as [_ [Coded _]]; [vm_compute; reflexivity|].
    apply Coded.
    apply (search_postal_some "12 MG Road, 560001 or 110001" 12).
    vm_compute. reflexivity.
Defined.

(* ================================================================== *)
(** ** Unanchored trigger against word-bounded detector *)

Lemma found_nowhere (re : regex) (s : text) :
  (forall j, j <= length s -> match_at re s j = None) -> found re s = false.
Proof.
  intros H. unfold found. destruct (search re s) as [[j m]|] eqn:E; auto.
  apply search_some in E. destruct E as [n [L [M _]]].
  rewrite (H j L) in M. discriminate.
Qed.



Lemma forallb_firstn (p : ascii -> bool) (n : nat) (s : text) :
  forallb p s = true -> forallb p (firstn n s) = true.
Proof.
  revert s. induction n as [|n IH]; intros [|c t]; simpl; auto.
  intros H. apply andb_prop in H. destruct H as [H1 H2].
  rewrite H1. simpl. auto.
Qed.

Lemma starts_with_firstn (n : nat) (s : text) :
  starts_with (firstn n s) s = true.
Proof.
  revert s. induction n as [|n IH]; intros [|c t]; simpl; auto.
  rewrite Ascii.eqb_refl. simpl. auto.
Qed.

(** The first run of [n] digits of a text of at least [n] digits. *)
Lemma group0_digits (n : nat) (d : text) :
  forallb is_digit d = true -> n <= length d ->
  group0 (digits n) d = Some (firstn n d).
Proof.
  intros D L. unfold group0, digits.
  rewrite (search_least [exactly is_digit n] d 0 (n + 0)).
  - simpl. rewrite Nat.add_0_r. reflexivity.
  - lia.
  - unfold match_at. rewrite match_here_exact. simpl skipn.
    assert (R : run_length is_digit (Some n) d = n).
    { apply run_length_full. split; [exact L|]. apply forallb_firstn. exact D. }
    rewrite R, Nat.eqb_refl. reflexivity.
  - intros j' Hj. lia.
Qed.

(** A text that starts with [old] starts with [new] after the replacement. *)
Lemma replace_prefix (old new : text) (c : ascii) (t : text) :
  old <> [] -> starts_with old (c :: t) = true ->
  replace (c :: t) old new
  = new ++ replace_from old new (length old - 1) t.
Proof.
  intros N P. destruct old as [|o old']; [congruence|].
  unfold replace. cbn [replace_from]. rewrite P. reflexivity.
Qed.




Example long_digits_rewritten :
  process_record [("phone" : text, VStr "98765432101")]
  = Ok ([("phone" : text, VStr "98XXXXXX101")], false).
Proof. vm_compute. reflexivity. Qed.

(* ================================================================== *)
(** ** The digit and passport masks keep the length of the text *)

Lemma starts_with_length (old s : text) :
  starts_with old s = true -> length old <= length s.
Proof.
  revert s. induction old as [|a old IH]; intros [|b s]; simpl; intros H;
    try lia; try discriminate.
  apply andb_prop in H. destruct H as [_ H]. apply IH in H. lia.
Qed.

Lemma replace_from_length (old new : text) :
  old <> [] -> length new = length old ->
  forall s k, k <= length s ->
    length (replace_from old new k s) = length s - k.
Proof.
  intros N E. induction s as [|c t IH]; intros k L; simpl in *.
  - reflexivity.
  - destruct k as [|k].
    + destruct (starts_with old (c :: t)) eqn:P.
      * apply starts_with_length in P. simpl in P.
        destruct old as [|o old']; [congruence|]. simpl in *.
        rewrite length_app, IH by lia. lia.
      * simpl. rewrite IH by lia. lia.
    + apply IH. lia.
Qed.

Lemma replace_length (s old new : text) :
  old <> [] -> length new = length old ->
  length (replace s old new) = length s.
Proof.
  intros N E. unfold replace. destruct old as [|o old']; [congruence|].
  rewrite (replace_from_length (o :: old') new N E s 0) by lia. lia.
Qed.

(** A match of [\d{n}] has [n] characters. *)
Lemma group0_digits_length (n : nat) (s m : text) :
  group0 (digits n) s = Some m -> length m = n.
Proof.
  unfold group0, digits. destruct (search _ s) as [[j x]|] eqn:E;
    [|discriminate].
  simpl. intros H. inversion H; subst x. clear H.
  apply search_some in E. destruct E as [k [_ [M [F _]]]].
  unfold match_at in M. rewrite match_here_exact in M.
  destruct (run_length is_digit (Some n) (skipn j s) =? n) eqn:R;
    [|discriminate].
  inversion M; subst k. apply Nat.eqb_eq in R. apply run_length_full in R.
  subst m. rewrite Nat.add_0_r. apply firstn_length_le. tauto.
Qed.

Lemma match_here_passport (prev : option ascii) (s : text) (n : nat) :
  match_here passport_pattern prev s = Some n -> n = 8 /\ 8 <= length s.
Proof.
  unfold passport_pattern, exactly. cbn [match_here].
  destruct (at_boundary prev s); [|discriminate].
  rewrite try_down_exact by apply run_length_le.
  destruct (run_length is_upper (Some 1) s =? 1) eqn:R1; [|discriminate].
  rewrite try_down_exact by apply run_length_le.
  destruct (run_length is_digit (Some 7) (skipn 1 s) =? 7) eqn:R7;
    [|discriminate].
  destruct (at_boundary _ _); [|discriminate].
  simpl. intros H. inversion H. split; [reflexivity|].
  apply Nat.eqb_eq in R7. apply run_length_full in R7.
  rewrite length_skipn in R7. lia.
Qed.

Lemma group0_passport_length (s m : text) :
  group0 passport_pattern s = Some m -> length m = 8.
Proof.
  unfold group0. destruct (search _ s) as [[j x]|] eqn:E; [|discriminate].
  simpl. intros H. inversion H; subst x. clear H.
  apply search_some in E. destruct E as [k [_ [M [F _]]]].
  apply match_here_passport in M. destruct M as [K L]. subst k m.
  apply firstn_length_le. exact L.
Qed.

Lemma last_n_length (n : nat) (m : text) :
  n <= length m -> length (last_n n m) = n.
Proof. intros H. unfold last_n. rewrite length_skipn. lia. Qed.

(** X1.  The phone, national-ID and passport masks return a text of the
    length of their input: every replaced run is replaced by as many
    characters. *)
Theorem digit_masks_keep_length (s : text) :
  length (obfuscate_phone_number s) = length s
  /\ length (obfuscate_aadhaar_number s) = length s
  /\ length (obfuscate_passport_number s) = length s.
Proof.
  split; [|split].
  - unfold obfuscate_phone_number.
    destruct (group0 (digits 10) s) as [m|] eqn:G; [|reflexivity].
    apply group0_digits_length in G. apply replace_length.
    + intros E. subst m. discriminate.
    + rewrite !length_app, firstn_length_le, last_n_length by lia.
      simpl. lia.
  - unfold obfuscate_aadhaar_number.
    destruct (group0 (digits 12) s) as [m|] eqn:G; [|reflexivity].
    apply group0_digits_length in G. apply replace_length.
    + intros E. subst m. discriminate.
    + rewrite !length_app, firstn_length_le, last_n_length by lia.
      simpl. lia.
  - unfold obfuscate_passport_number.
    destruct (group0 passport_pattern s) as [m|] eqn:G; [|reflexivity].
    apply group0_passport_length in G. apply replace_length.
    + intros E. subst m. discriminate.
    + rewrite !length_app, firstn_length_le by lia. simpl. lia.
Qed.

Lemma replace_from_skip_all (old new : text) (s : text) (k : nat) :
  length s <= k -> replace_from old new k s = [].
Proof.
  revert k. induction s as [|c t IH]; intros k L; simpl in *; auto.
  destruct k as [|k]; [lia|]. apply IH. lia.
Qed.

(** Replacing a whole text by [new] gives [new]. *)
Lemma replace_whole (s new : text) : s <> [] -> replace s s new = new.
Proof.
  intros N. destruct s as [|c t]; [congruence|].
  rewrite replace_prefix.
  - rewrite replace_from_skip_all by (simpl; lia). apply app_nil_r.
  - discriminate.
  - rewrite <- (firstn_all (c :: t)) at 1. apply starts_with_firstn.
Qed.

(** X2.  A text that is exactly 10 digits is masked by the phone mask to its
    first 2 digits, six [X] and its last 2 digits; a text that is exactly 12
    digits is masked by the national-ID mask to its first 4 digits, four [X]
    and its last 4 digits. *)
Theorem bare_numbers_masked (p a : text) :
  forallb is_digit p = true -> length p = 10 ->
  forallb is_digit a = true -> length a = 12 ->
  obfuscate_phone_number p = firstn 2 p ++ "XXXXXX" ++ skipn 8 p
  /\ obfuscate_aadhaar_number a = firstn 4 a ++ "XXXX" ++ skipn 8 a.
Proof.
  intros Dp Lp Da La. split.
  - unfold obfuscate_phone_number.
    rewrite (group0_digits 10 p Dp) by lia.
    rewrite firstn_all2 by lia.
    rewrite replace_whole by (intros E; subst p; discriminate).
    unfold last_n. rewrite Lp. reflexivity.
  - unfold obfuscate_aadhaar_number.
    rewrite (group0_digits 12 a Da) by lia.
    rewrite firstn_all2 by lia.
    rewrite replace_whole by (intros E; subst a; discriminate).
    unfold last_n. rewrite La. reflexivity.
Qed.

Lemma bare_numbers_masked_witness :
  obfuscate_phone_number "9876543210"
  = firstn 2 ("9876543210" : text) ++ "XXXXXX" ++ skipn 8 ("9876543210" : text)
  /\ obfuscate_aadhaar_number "123456789012"
     = firstn 4 ("123456789012" : text) ++ "XXXX"
       ++ skipn 8 ("123456789012" : text).
Proof.
  apply (bare_numbers_masked "9876543210" "123456789012");
    vm_compute; reflexivity.
Defined.

(* ================================================================== *)
(** ** Network address and device identifier *)

Lemma split_on_nonempty (sep : ascii) (s : text) : split_on sep s <> [].
Proof.
  destruct s as [|c t]; simpl; [discriminate|].
  destruct (Ascii.eqb c sep); [discriminate|].
  destruct (split_on sep t); discriminate.
Qed.

(** [split] gives one piece more than there are separators. *)
Lemma split_on_length (sep : ascii) (s : text) :
  length (split_on sep s) = S (count_occ ascii_dec s sep).
Proof.
  induction s as [|c t IH]; simpl; [reflexivity|].
  destruct (Ascii.eqb c sep) eqn:E.
  - apply Ascii.eqb_eq in E. subst c.
    destruct (ascii_dec sep sep); [|congruence]. simpl. rewrite IH.
    reflexivity.
  - apply Ascii.eqb_neq in E.
    destruct (ascii_dec c sep); [congruence|].
    destruct (split_on sep t) eqn:S; simpl in *; [discriminate|exact IH].
Qed.

Lemma split_on_piece (sep : ascii) (a rest : text) :
  ~ In sep a -> split_on sep (a ++ sep :: rest) = a :: split_on sep rest.
Proof.
  induction a as [|c t IH]; simpl; intros N.
  - rewrite Ascii.eqb_refl. reflexivity.
  - destruct (Ascii.eqb c sep) eqn:E.
    + apply Ascii.eqb_eq in E. subst. tauto.
    + rewrite IH by tauto. reflexivity.
Qed.

Lemma split_on_last (sep : ascii) (a : text) :
  ~ In sep a -> split_on sep a = [a].
Proof.
  induction a as [|c t IH]; simpl; intros N; [reflexivity|].
  destruct (Ascii.eqb c sep) eqn:E.
  - apply Ascii.eqb_eq in E. subst. tauto.
  - rewrite IH by tauto. reflexivity.
Qed.

(** X3.  The network-address mask returns the redaction sentinel unless the
    text has exactly three dots; on four dot-free pieces joined by dots,
    whatever they hold (the pieces are not checked to be numbers and may be
    empty), it keeps the first and the last piece and writes [XXX] for the
    two in the middle. *)
Theorem ip_mask_shape (s a b c d : text) :
  count_occ ascii_dec s "."%char <> 3 ->
  ~ In "."%char a -> ~ In "."%char b -> ~ In "."%char c -> ~ In "."%char d ->
  obfuscate_ip_address s = REDACTED_PII
  /\ obfuscate_ip_address (a ++ "." ++ b ++ "." ++ c ++ "." ++ d)
     = a ++ ".XXX.XXX." ++ d.
Proof.
  intros Hs Ha Hb Hc Hd. split.
  - unfold obfuscate_ip_address.
    pose proof (split_on_length "." s) as L.
    destruct (split_on "." s) as [|x1 [|x2 [|x3 [|x4 [|x5 l]]]]];
      try reflexivity.
    simpl in L. congruence.
  - unfold obfuscate_ip_address.
    change (a ++ "." ++ b ++ "." ++ c ++ "." ++ d)
      with (a ++ "."%char :: b ++ "."%char :: c ++ "."%char :: d).
    rewrite (split_on_piece "." a _ Ha), (split_on_piece "." b _ Hb),
      (split_on_piece "." c _ Hc), (split_on_last "." d Hd).
    reflexivity.
Qed.

Lemma ip_mask_shape_witness :
  obfuscate_ip_address "10.0.0" = REDACTED_PII
  /\ obfuscate_ip_address ("host" ++ "." ++ "" ++ "." ++ "1" ++ "." ++ "20")
     = "host" ++ ".XXX.XXX." ++ "20".
Proof.
  apply (ip_mask_shape "10.0.0" "host" "" "1" "20");
    vm_compute; intuition discriminate.
Defined.

(** X4.  The device-identifier mask returns 6 characters for a text of at
    most 6 characters and 9 characters for any longer text, of which the
    first 3 and the last 3 are those of the text. *)
Theorem device_mask_shape (s : text) :
  length (obfuscate_device_identifier s)
  = (if length s <=? 6 then 6 else 9)
  /\ (6 < length s ->
      firstn 3 (obfuscate_device_identifier s) = firstn 3 s
      /\ skipn 6 (obfuscate_device_identifier s) = skipn (length s - 3) s).
Proof.
  unfold obfuscate_device_identifier.
  destruct (length s <=? 6) eqn:E.
  - split; [reflexivity|]. apply Nat.leb_le in E. intros H. lia.
  - apply Nat.leb_gt in E. split.
    + rewrite !length_app, firstn_length_le, last_n_length by lia.
      reflexivity.
    + intros _.
      assert (L3 : length (firstn 3 s) = 3) by (apply firstn_length_le; lia).
      destruct (firstn 3 s) as [|x1 [|x2 [|x3 [|x4 l]]]]; try discriminate.
      split; reflexivity.
Qed.

(* ================================================================== *)
(** ** Name masking *)

Lemma forallb_rev (p : ascii -> bool) (s : text) :
  forallb p (rev s) = forallb p s.
Proof.
  induction s as [|c t IH]; simpl; auto.
  rewrite forallb_app, IH. simpl. rewrite andb_true_r. apply andb_comm.
Qed.

Lemma split_ws_from_tokens (s : text) :
  forall cur,
    forallb (fun c => negb (is_space c)) cur = true ->
    Forall is_token (split_ws_from cur s).
Proof.
  induction s as [|c t IH]; intros cur H; simpl.
  - destruct cur as [|x cur']; constructor; [|constructor].
    split.
    + intros E. apply (f_equal (@length ascii)) in E.
      rewrite length_rev in E. discriminate.
    + rewrite forallb_rev. exact H.
  - destruct (is_space c) eqn:S.
    + destruct cur as [|x cur'].
      * apply IH. reflexivity.
      * constructor; [|apply IH; reflexivity].
        split.
        -- intros E. apply (f_equal (@length ascii)) in E.
           rewrite length_rev in E. discriminate.
        -- rewrite forallb_rev. exact H.
    + apply IH. simpl. rewrite S. exact H.
Qed.

Lemma split_ws_tokens (s : text) : Forall is_token (split_ws s).
Proof. apply split_ws_from_tokens. reflexivity. Qed.

Lemma split_ws_from_word (t rest cur : text) :
  forallb (fun c => negb (is_space c)) t = true ->
  split_ws_from cur (t ++ rest) = split_ws_from (rev t ++ cur) rest.
Proof.
  revert cur. induction t as [|c t IH]; intros cur H; simpl in *.
  - reflexivity.
  - apply andb_prop in H. destruct H as [Hc Ht].
    apply negb_true_iff in Hc. rewrite Hc, (IH _ Ht), <- app_assoc.
    reflexivity.
Qed.

(** Splitting what was joined with single spaces gives the tokens back. *)
Lemma split_ws_join (toks : list text) :
  Forall is_token toks -> split_ws (join " " toks) = toks.
Proof.
  unfold split_ws. induction toks as [|p ps IH]; intros H; [reflexivity|].
  inversion H as [|? ? [Np Sp] Hps]; subst.
  destruct ps as [|q ps'].
  - simpl. rewrite <- (app_nil_r p) at 1.
    rewrite (split_ws_from_word p [] [] Sp). simpl. rewrite app_nil_r.
    destruct (rev p) eqn:E.
    + apply (f_equal (@length ascii)) in E. rewrite length_rev in E.
      destruct p; [congruence|discriminate].
    + rewrite <- E, rev_involutive. reflexivity.
  - change (join " " (p :: q :: ps'))
      with (p ++ " "%char :: join " " (q :: ps')).
    rewrite (split_ws_from_word p _ [] Sp). rewrite app_nil_r.
    cbn [split_ws_from]. change (is_space " ") with true. cbv iota.
    destruct (rev p) eqn:E.
    + apply (f_equal (@length ascii)) in E. rewrite length_rev in E.
      destruct p; [congruence|discriminate].
    + rewrite <- E, rev_involutive, (IH Hps). reflexivity.
Qed.

Lemma xs_length (n : nat) : length (xs n) = n.
Proof. apply repeat_length. Qed.

Lemma xs_no_space (n : nat) :
  forallb (fun c => negb (is_space c)) (xs n) = true.
Proof. induction n; simpl; auto. Qed.

Lemma mask_token_token (t : text) : is_token t -> is_token (mask_token t).
Proof.
  intros [N S]. destruct t as [|c t']; [congruence|].
  unfold mask_token. simpl in *. rewrite Nat.sub_0_r.
  apply andb_prop in S. destruct S as [Sc _].
  split; [discriminate|]. simpl. rewrite Sc, xs_no_space. reflexivity.
Qed.

Lemma mask_token_length (t : text) :
  t <> [] -> length (mask_token t) = length t.
Proof.
  intros N. destruct t as [|c t']; [congruence|].
  unfold mask_token. simpl. rewrite xs_length. lia.
Qed.

Lemma mask_token_twice (t : text) :
  t <> [] -> mask_token (mask_token t) = mask_token t.
Proof.
  intros N. destruct t as [|c t']; [congruence|].
  unfold mask_token. simpl. rewrite !Nat.sub_0_r, xs_length. reflexivity.
Qed.

Lemma name_mask_tokens (s : text) :
  split_ws (obfuscate_personal_name s) = map mask_token (split_ws s).
Proof.
  unfold obfuscate_personal_name. apply split_ws_join.
  pose proof (split_ws_tokens s) as T.
  induction T as [|t ts Ht _ IH]; simpl; constructor; auto.
  apply mask_token_token. exact Ht.
Qed.

(** X5.  The name mask keeps the number of words of the name and the length
    of every word, and masking a masked name changes nothing. *)
Theorem name_mask_keeps_word_lengths (s : text) :
  map (@length ascii) (split_ws (obfuscate_personal_name s))
  = map (@length ascii) (split_ws s)
  /\ obfuscate_personal_name (obfuscate_personal_name s)
     = obfuscate_personal_name s.
Proof.
  pose proof (split_ws_tokens s) as T. split.
  - rewrite name_mask_tokens, map_map.
    apply map_ext_in. intros t Ht. rewrite Forall_forall in T.
    apply mask_token_length. apply (T t Ht).
  - unfold obfuscate_personal_name at 1.
    rewrite name_mask_tokens, map_map. unfold obfuscate_personal_name.
    f_equal. apply map_ext_in. intros t Ht. rewrite Forall_forall in T.
    apply (mask_token_twice t). apply (T t Ht).
Qed.

(* ================================================================== *)
(** ** Complete names and complete addresses *)

Lemma findall_alpha_from_word (a rest cur : text) :
  forallb is_alpha a = true ->
  findall_alpha_from cur (a ++ rest) = findall_alpha_from (rev a ++ cur) rest.
Proof.
  revert cur. induction a as [|c a IH]; intros cur H; simpl in *.
  - reflexivity.
  - apply andb_prop in H. destruct H as [Hc Ha].
    rewrite Hc, (IH _ Ha), <- app_assoc. reflexivity.
Qed.

Lemma rev_not_nil (a : text) : a <> [] -> rev a <> [].
Proof.
  intros N E. apply (f_equal (@length ascii)) in E.
  rewrite length_rev in E. destruct a; [congruence|discriminate].
Qed.

(** X6.  A text of letters only is never a complete name, however long; two
    non-empty runs of letters separated by one character that is not a letter
    (a space, but also a digit, a hyphen or an apostrophe) are one. *)
Theorem complete_name_needs_a_separator (s a b : text) (c : ascii) :
  forallb is_alpha s = true ->
  a <> [] -> forallb is_alpha a = true ->
  b <> [] -> forallb is_alpha b = true ->
  is_alpha c = false ->
  appears_as_complete_name s = false
  /\ appears_as_complete_name (a ++ c :: b) = true.
Proof.
  intros Hs Na Ha Nb Hb Hc. unfold appears_as_complete_name, findall_alpha.
  split.
  - rewrite <- (app_nil_r s).
    rewrite (findall_alpha_from_word s [] [] Hs). simpl.
    destruct (rev s ++ []); reflexivity.
  - rewrite (findall_alpha_from_word a (c :: b) [] Ha).
    cbn [findall_alpha_from]. rewrite Hc, app_nil_r.
    pose proof (rev_not_nil a Na) as Ra.
    destruct (rev a) as [|x ra]; [congruence|].
    rewrite <- (app_nil_r b).
    rewrite (findall_alpha_from_word b [] [] Hb). simpl.
    rewrite app_nil_r.
    pose proof (rev_not_nil b Nb) as Rb.
    destruct (rev b); [congruence|]. reflexivity.
Qed.

Lemma complete_name_needs_a_separator_witness :
  appears_as_complete_name "Madonna" = false
  /\ appears_as_complete_name ("O" ++ "'"%char :: "Neil") = true.
Proof.
  apply (complete_name_needs_a_separator "Madonna" "O" "Neil" "'");
    vm_compute; intuition discriminate.
Defined.

Lemma address_content_of (r : record) (v : value) :
  get "address" r = Some v -> truthy v = true ->
  contains_complete_address r
  = (nonempty (str v ++ " ")
     && (nonempty (strip (get_text "city" r))
         || nonempty (strip (get_text "state" r))
         || nonempty (strip (get_text "pin_code" r))
         || found postal_code_pattern (str v ++ " "))).
Proof.
  intros G T. unfold contains_complete_address, LOCATION_FIELDS.
  cbn [fold_left]. rewrite G, T. reflexivity.
Qed.

Lemma nonempty_app_space (s : text) : nonempty (s ++ " ") = true.
Proof. destruct s; reflexivity. Qed.

(** X7.  Without a truthy address field a record has no complete address,
    whatever its city, state and pin_code fields hold; an address that is
    ASCII text in which a postal code occurs is complete by itself. *)
Theorem complete_address_needs_address (r1 r2 : record) (a : text) :
  present "address" r1 = false ->
  get "address" r2 = Some (VStr a) ->
  is_ascii_text a = true -> has_postal_code a ->
  contains_complete_address r1 = false
  /\ contains_complete_address r2 = true.
Proof.
  intros P G _ H. split.
  - unfold contains_complete_address, LOCATION_FIELDS. cbn [fold_left].
    unfold present in P. destruct (get "address" r1) as [v|]; [|reflexivity].
    rewrite P. reflexivity.
  - destruct H as [pre [code [post [Es Pc]]]].
    assert (Ta : truthy (VStr a) = true).
    { destruct Pc as [L _]. subst a. destruct code; [discriminate|].
      destruct pre; reflexivity. }
    rewrite (address_content_of r2 (VStr a) G Ta). cbn [str].
    rewrite nonempty_app_space. cbn [andb].
    assert (F : found postal_code_pattern (a ++ " ") = true).
    { subst a.
      replace ((pre ++ code ++ post) ++ " ")
        with (pre ++ code ++ (post ++ " "))
        by (rewrite <- !app_assoc; reflexivity).
      apply (found_match _ _ (length pre) (6 + 0)).
      - rewrite length_app. lia.
      - apply postal_match. destruct Pc as [L [D [W1 W2]]].
        repeat split; auto. destruct post; [reflexivity|exact W2]. }
    rewrite F. rewrite !orb_true_r. reflexivity.
Qed.

Lemma complete_address_needs_address_witness :
  contains_complete_address
    [("city" : text, VStr "Pune"); ("pin_code" : text, VInt 411001)] = false
  /\ contains_complete_address
       [("address" : text, VStr "12 MG Road 560001")] = true.
Proof.
  apply (complete_address_needs_address
           [("city" : text, VStr "Pune"); ("pin_code" : text, VInt 411001)]
           [("address" : text, VStr "12 MG Road 560001")]
           "12 MG Road 560001").
  - vm_compute. reflexivity.
  - vm_compute. reflexivity.
  - vm_compute. reflexivity.
  - exists ("12 MG Road " : text), ("560001" : text), ([] : text).
    vm_compute. repeat split; reflexivity.
Defined.

(** X8.  A city, state or pin_code field that is present with the value null
    counts as location context: with a truthy address field the record has a
    complete address. *)
Theorem null_city_completes_address (r : record) :
  present "address" r = true ->
  get "city" r = Some VNull \/ get "state" r = Some VNull
  \/ get "pin_code" r = Some VNull ->
  contains_complete_address r = true.
Proof.
  intros P H. unfold present in P.
  destruct (get "address" r) as [v|] eqn:G; [|discriminate].
  rewrite (address_content_of r v G P), nonempty_app_space. cbn [andb].
  unfold get_text.
  destruct H as [H|[H|H]]; rewrite H; cbn [str];
    change (nonempty (strip "None")) with true;
    rewrite ?orb_true_r; reflexivity.
Qed.

Lemma null_city_completes_address_witness :
  contains_complete_address
    [("address" : text, VStr "Baker Street"); ("state" : text, VNull)] = true.
Proof.
  apply (null_city_completes_address
           [("address" : text, VStr "Baker Street"); ("state" : text, VNull)]).
  - vm_compute. reflexivity.
  - right. left. vm_compute. reflexivity.
Defined.

(* ================================================================== *)
(** ** Classification: field order and user context *)

Lemma existsb_perm {A : Type} (f : A -> bool) (l1 l2 : list A) :
  Permutation l1 l2 -> existsb f l1 = existsb f l2.
Proof.
  induction 1; simpl; try congruence.
  destruct (f x), (f y); reflexivity.
Qed.

Lemma wf_perm (r1 r2 : record) :
  wf_record r1 -> Permutation r1 r2 -> wf_record r2.
Proof.
  unfold wf_record, keys. intros W P.
  apply (Permutation_NoDup (Permutation_map fst P) W).
Qed.

(** In a dict a lookup does not depend on the order of the entries. *)
Lemma get_perm (r1 r2 : record) (k : text) :
  wf_record r1 -> Permutation r1 r2 -> get k r1 = get k r2.
Proof.
  intros W1 P. pose proof (wf_perm r1 r2 W1 P) as W2.
  destruct (get k r1) as [v|] eqn:G1.
  - apply get_in in G1. apply (Permutation_in _ P) in G1.
    symmetry. apply (get_entry k v r2 W2 G1).
  - destruct (get k r2) as [v|] eqn:G2; [|reflexivity].
    apply get_in in G2. apply (Permutation_in _ (Permutation_sym P)) in G2.
    rewrite (get_entry k v r1 W1 G2) in G1. discriminate.
Qed.

(** X9.  The detector result, the combinatorial score and the verdict of a
    dict do not depend on the order of its fields. *)
Theorem classification_ignores_field_order (r1 r2 : record) :
  wf_record r1 -> Permutation r1 r2 ->
  contains_individual_pii r1 = contains_individual_pii r2
  /\ count_combinatorial_elements r1 = count_combinatorial_elements r2
  /\ is_sensitive_record r1 = is_sensitive_record r2.
Proof.
  intros W P.
  assert (D : contains_individual_pii r1 = contains_individual_pii r2).
  { unfold contains_individual_pii, any_field.
    rewrite !(existsb_perm _ r1 r2 P). reflexivity. }
  assert (S : count_combinatorial_elements r1
              = count_combinatorial_elements r2).
  { apply score_reads_exact_names. intros f _. apply get_perm; assumption. }
  split; [exact D|]. split; [exact S|].
  unfold is_sensitive_record. rewrite D, S. reflexivity.
Qed.

Lemma classification_ignores_field_order_witness :
  contains_individual_pii name_email_record
  = contains_individual_pii (rev name_email_record)
  /\ count_combinatorial_elements name_email_record
     = count_combinatorial_elements (rev name_email_record)
  /\ is_sensitive_record name_email_record
     = is_sensitive_record (rev name_email_record).
Proof.
  apply (classification_ignores_field_order name_email_record
           (rev name_email_record)).
  - apply wf_check. vm_compute. reflexivity.
  - apply Permutation_rev.
Defined.

(** X10.  Without user context (no complete name, no email address and no
    phone-named field) the device-id and network-address signals do not
    count: the score is at most 1 and the verdict is the detector's result. *)
Theorem no_user_context_no_combination (r : record) :
  has_user_context r = false ->
  count_combinatorial_elements r <= 1
  /\ is_sensitive_record r = contains_individual_pii r.
Proof.
  intros H. pose proof H as H0. unfold has_user_context in H0.
  apply orb_false_elim in H0. destruct H0 as [H0 _].
  apply orb_false_elim in H0. destruct H0 as [Hn He].
  assert (S : count_combinatorial_elements r <= 1).
  { unfold count_combinatorial_elements. rewrite H, Hn, He, !andb_false_r.
    unfold count_if. destruct (contains_complete_address r); simpl; lia. }
  split; [exact S|].
  unfold is_sensitive_record.
  assert (E : (2 <=? count_combinatorial_elements r) = false)
    by (apply Nat.leb_gt; lia).
  rewrite E. apply orb_false_r.
Qed.

Lemma no_user_context_no_combination_witness :
  count_combinatorial_elements device_only_record <= 1
  /\ is_sensitive_record device_only_record
     = contains_individual_pii device_only_record.
Proof.
  apply (no_user_context_no_combination device_only_record).
  vm_compute. reflexivity.
Defined.

Lemma count_if_true (n : nat) : count_if true n = n + 1.
Proof. reflexivity. Qed.

Lemma count_if_ge (b : bool) (n : nat) : n <= count_if b n.
Proof. unfold count_if. destruct b; lia. Qed.

(** X11.  A phone-named field counts as user context by its presence alone,
    whatever it holds: a record with such a field (spelled in lowercase), a
    truthy device_id and a truthy ip or ip_address field scores at least 2
    and gets the verdict true. *)
Theorem phone_key_is_user_context (r : record) (k : text) :
  In k PHONE_RELATED_FIELDS -> contains k r = true ->
  present "device_id" r = true ->
  present "ip" r = true \/ present "ip_address" r = true ->
  2 <= count_combinatorial_elements r /\ is_sensitive_record r = true.
Proof.
  intros Hk Hc Hd Hi.
  assert (U : has_user_context r = true).
  { unfold has_user_context. apply orb_true_iff. right.
    apply existsb_exists. exists k. auto. }
  assert (D : has_device_id r = true).
  { unfold has_device_id, HARDWARE_ID_FIELDS. cbn [existsb].
    rewrite Hd. reflexivity. }
  assert (I : has_ip_address r = true).
  { unfold has_ip_address, NETWORK_IP_FIELDS. cbn [existsb].
    destruct Hi as [Hi|Hi]; rewrite Hi; rewrite ?orb_true_r; reflexivity. }
  assert (S : 2 <= count_combinatorial_elements r).
  { unfold count_combinatorial_elements. rewrite U, D, I. cbn [andb].
    rewrite !count_if_true.
    pose proof (count_if_ge (contains_complete_address r)
                  (count_if (has_email_address r)
                     (count_if (has_complete_name r) 0))).
    lia. }
  split; [exact S|].
  unfold is_sensitive_record. apply orb_true_iff. right.
  apply Nat.leb_le. exact S.
Qed.

Lemma phone_key_is_user_context_witness :
  2 <= count_combinatorial_elements null_phone_record
  /\ is_sensitive_record null_phone_record = true.
Proof.
  apply (phone_key_is_user_context null_phone_record "mobile").
  - vm_compute. tauto.
  - vm_compute. reflexivity.
  - vm_compute. reflexivity.
  - right. vm_compute. reflexivity.
Defined.

(* ================================================================== *)
(** ** What the redaction leaves alone and what it writes *)

Lemma falsy_cases (v : value) :
  truthy v = false -> v = VNull \/ v = VStr [] \/ v = VInt 0.
Proof.
  destruct v as [[|c t]|z|]; simpl; intros H; auto; try discriminate.
  apply negb_false_iff in H. apply Z.eqb_eq in H. subst. auto.
Qed.

Lemma standalone_mask_falsy (k : text) (v : value) :
  truthy v = false -> standalone_mask k v = v.
Proof.
  intros H. destruct (falsy_cases v H) as [E|[E|E]]; subst v.
  - reflexivity.
  - unfold standalone_mask. cbv zeta.
    change (found (digits 10) (str (VStr []))) with false.
    change (found (digits 12) (str (VStr []))) with false.
    change (found passport_pattern (str (VStr []))) with false.
    change (found upi_pattern (str (VStr []))) with false.
    rewrite !andb_false_r. reflexivity.
  - unfold standalone_mask. cbv zeta.
    change (found (digits 10) (str (VInt 0))) with false.
    change (found (digits 12) (str (VInt 0))) with false.
    change (found passport_pattern (str (VInt 0))) with false.
    change (found upi_pattern (str (VInt 0))) with false.
    rewrite !andb_false_r. reflexivity.
Qed.

Lemma quasi_mask_falsy (pair : bool) (k : text) (v : value) :
  truthy v = false -> quasi_mask pair k v = v.
Proof.
  intros H. unfold quasi_mask, email_upd, full_name_upd, truthy_upd.
  rewrite H. cbn [andb].
  assert (I : initial_mask v = v).
  { destruct (falsy_cases v H) as [E|[E|E]]; subst v; reflexivity. }
  rewrite I.
  repeat match goal with
         | |- context [if ?c then _ else _] => destruct c
         end; reflexivity.
Qed.

(** X12.  A field whose value is falsy (null, the empty string or the number
    0) holds the same value in the record [apply_redaction_rules] returns,
    under any field name and either flag. *)
Theorem falsy_values_are_kept
  (r r' : record) (b : bool) (k : text) (v : value) :
  wf_record r ->
  apply_redaction_rules r b = Ok r' ->
  get k r = Some v -> truthy v = false ->
  get k r' = Some v.
Proof.
  intros W A G T. rewrite (apply_redaction_rules_spec r b W) in A.
  destruct (b && (2 <=? count_combinatorial_elements r) && pair_not_text r);
    [discriminate|].
  inversion A; subst r'. rewrite get_entrywise, G. simpl. f_equal.
  unfold redacted_value. rewrite (standalone_mask_falsy k v T).
  destruct (b && (2 <=? count_combinatorial_elements r)); [|reflexivity].
  apply quasi_mask_falsy. exact T.
Qed.

Lemma falsy_values_are_kept_witness :
  get "email"
    [("phone" : text, VInt 0); ("email" : text, VStr "");
     ("name" : text, VStr "AXXX VXXXX"); ("ip" : text, VStr "10.XXX.XXX.7");
     ("device_id" : text, VNull)]
  = Some (VStr "").
Proof.
  apply (falsy_values_are_kept falsy_fields_record _ true "email" (VStr "")).
  - apply wf_check. vm_compute. reflexivity.
  - vm_compute. reflexivity.
  - vm_compute. reflexivity.
  - reflexivity.
Defined.

Lemma standalone_mask_text (k : text) (v : value) :
  standalone_mask k v = v \/ exists s, standalone_mask k v = VStr s.
Proof.
  unfold standalone_mask. destruct v as [t|z|]; auto; cbv zeta;
    repeat match goal with
           | |- context [if ?c then _ else _] => destruct c
           end; eauto.
Qed.

Lemma quasi_mask_text (pair : bool) (k : text) (v : value) :
  quasi_mask pair k v = v \/ exists s, quasi_mask pair k v = VStr s.
Proof.
  unfold quasi_mask, email_upd, full_name_upd, truthy_upd, initial_mask.
  repeat match goal with
         | |- context [if ?c then _ else _] => destruct c
         end; eauto.
  destruct v as [[|c t]|z|]; eauto.
Qed.

(** X13.  Whatever [apply_redaction_rules] changes it replaces by text: a
    field of the returned record holds its original value or a string, so a
    number that is masked comes back as a string and no field becomes null. *)
Theorem redaction_writes_text_only
  (r r' : record) (b : bool) (k : text) (v v' : value) :
  wf_record r ->
  apply_redaction_rules r b = Ok r' ->
  get k r = Some v -> get k r' = Some v' ->
  v' = v \/ exists s, v' = VStr s.
Proof.
  intros W A G G'. rewrite (apply_redaction_rules_spec r b W) in A.
  destruct (b && (2 <=? count_combinatorial_elements r) && pair_not_text r);
    [discriminate|].
  inversion A; subst r'. rewrite get_entrywise, G in G'. simpl in G'.
  inversion G'; subst v'. unfold redacted_value.
  destruct (b && (2 <=? count_combinatorial_elements r)).
  - destruct (quasi_mask_text (pair_present r) k (standalone_mask k v))
      as [E|E]; [|auto].
    rewrite E. apply standalone_mask_text.
  - apply standalone_mask_text.
Qed.

Lemma redaction_writes_text_only_witness :
  VStr "98XXXXXX10" = VInt 9876543210
  \/ exists s, VStr "98XXXXXX10" = VStr s.
Proof.
  apply (redaction_writes_text_only numeric_phone_record
           [("Mobile" : text, VStr "98XXXXXX10");
            ("name" : text, VStr "AXXX VXXXX");
            ("email" : text, VStr "asXXX@mail.com")]
           true "Mobile" (VInt 9876543210) (VStr "98XXXXXX10")).
  - apply wf_check. vm_compute. reflexivity.
  - vm_compute. reflexivity.
  - vm_compute. reflexivity.
  - vm_compute. reflexivity.
Defined.

Lemma any_field_gated (fields : list text) (pattern : regex) (r : record) :
  (forall k, In k (keys r) -> mem (lower k) fields = false) ->
  any_field fields pattern r = false.
Proof.
  intros H. unfold any_field. destruct (existsb _ r) eqn:E; auto.
  apply existsb_exists in E. destruct E as [[k v] [Hin C]]. simpl in C.
  apply andb_prop in C. destruct C as [C _].
  rewrite H in C; [discriminate|].
  change k with (fst (k, v)). apply in_map. exact Hin.
Qed.

Lemma not_standalone_parts (l : text) :
  mem l standalone_fields = false ->
  mem l PHONE_RELATED_FIELDS = false /\ mem l AADHAAR_RELATED_FIELDS = false
  /\ mem l PASSPORT_RELATED_FIELDS = false /\ mem l UPI_RELATED_FIELDS = false.
Proof.
  unfold standalone_fields, mem. rewrite !existsb_app. intros H.
  apply orb_false_elim in H. destruct H as [H1 H].
  apply orb_false_elim in H. destruct H as [H2 H].
  apply orb_false_elim in H. destruct H as [H3 H4]. auto.
Qed.

(** X14.  A dict with no phone-, national-ID-, passport- or
    payment-handle-named field and a score below 2 passes through
    unchanged with the verdict false, whatever name, email, address, IP and
    device-id fields it holds. *)
Theorem below_two_signals_passes_through (r : record) :
  wf_record r ->
  (forall k, In k (keys r) -> mem (lower k) standalone_fields = false) ->
  count_combinatorial_elements r < 2 ->
  process_record r = Ok (r, false).
Proof.
  intros W N S.
  assert (V : is_sensitive_record r = false).
  { unfold is_sensitive_record, contains_individual_pii.
    rewrite !any_field_gated
      by (intros k Hk; apply (not_standalone_parts _ (N k Hk))).
    apply Nat.leb_gt. exact S. }
  unfold process_record. rewrite V.
  rewrite (apply_redaction_rules_spec r false W). cbn [andb bind].
  do 2 f_equal. apply entrywise_id. intros k v Hin.
  unfold redacted_value. cbn [andb]. apply standalone_mask_other.
  apply N. change k with (fst (k, v)). apply in_map. exact Hin.
Qed.

Lemma below_two_signals_passes_through_witness :
  process_record address_record = Ok (address_record, false).
Proof.
  apply (below_two_signals_passes_through address_record).
  - apply wf_check. vm_compute. reflexivity.
  - intros k H. vm_compute in H.
    repeat (destruct H as [H|H]; [subst k; vm_compute; reflexivity|]).
    destruct H.
  - vm_compute. lia.
Defined.

Lemma conditional_value (r r' : record) (k : text) (v : value) :
  wf_record r -> 2 <= count_combinatorial_elements r ->
  apply_redaction_rules r true = Ok r' ->
  get k r = Some v -> In k quasi_fields ->
  get k r' = Some (quasi_mask (pair_present r) k v).
Proof.
  intros W S A G Q. rewrite (apply_redaction_rules_spec r true W) in A.
  destruct (true && (2 <=? count_combinatorial_elements r) && pair_not_text r);
    [discriminate|].
  inversion A; subst r'. rewrite get_entrywise, G. simpl. f_equal.
  unfold redacted_value. apply Nat.leb_le in S. rewrite S. cbn [andb].
  rewrite (standalone_mask_other k v (quasi_fields_not_standalone k Q)).
  reflexivity.
Qed.

Ltac each_name H :=
  vm_compute in H;
  repeat (destruct H as [H|H]; [subst|]); try contradiction.

Lemma quasi_mask_by_field (pair : bool) (k : text) (v : value) :
  (In k EMAIL_RELATED_FIELDS -> quasi_mask pair k v = email_upd v)
  /\ (In k FULL_NAME_FIELDS -> quasi_mask pair k v = full_name_upd v)
  /\ (In k LOCATION_FIELDS ->
      quasi_mask pair k v = truthy_upd obfuscate_physical_address v)
  /\ (In k NETWORK_IP_FIELDS ->
      quasi_mask pair k v = truthy_upd obfuscate_ip_address v)
  /\ (In k HARDWARE_ID_FIELDS ->
      quasi_mask pair k v = truthy_upd obfuscate_device_identifier v).
Proof.
  repeat split; intros H; each_name H; reflexivity.
Qed.

(** X15.  When the conditional pass runs (flag true, score at least 2) and
    the call returns, every truthy address, ip, ip_address and device_id
    field holds its masked form, whichever signals made the score; so does
    every truthy email-named field in which the email pattern is found and a
    truthy name field that is a complete name. *)
Theorem conditional_pass_masks_quasi_identifiers
  (r r' : record) (k : text) (v : value) :
  wf_record r -> 2 <= count_combinatorial_elements r ->
  apply_redaction_rules r true = Ok r' ->
  get k r = Some v -> truthy v = true ->
  (In k LOCATION_FIELDS ->
   get k r' = Some (VStr (obfuscate_physical_address (str v))))
  /\ (In k NETWORK_IP_FIELDS ->
      get k r' = Some (VStr (obfuscate_ip_address (str v))))
  /\ (In k HARDWARE_ID_FIELDS ->
      get k r' = Some (VStr (obfuscate_device_identifier (str v))))
  /\ (In k EMAIL_RELATED_FIELDS -> found email_pattern (str v) = true ->
      get k r' = Some (VStr (obfuscate_email_address (str v))))
  /\ (In k FULL_NAME_FIELDS -> appears_as_complete_name (str v) = true ->
      get k r' = Some (VStr (obfuscate_personal_name (str v)))).
Proof.
  intros W S A G T.
  assert (C : In k quasi_fields ->
              get k r' = Some (quasi_mask (pair_present r) k v))
    by (apply conditional_value; assumption).
  destruct (quasi_mask_by_field (pair_present r) k v)
    as [Qe [Qn [Ql [Qi Qd]]]].
  repeat split.
  - intros H. rewrite C, (Ql H) by (each_name H; vm_compute; tauto).
    unfold truthy_upd. rewrite T. reflexivity.
  - intros H. rewrite C, (Qi H) by (each_name H; vm_compute; tauto).
    unfold truthy_upd. rewrite T. reflexivity.
  - intros H. rewrite C, (Qd H) by (each_name H; vm_compute; tauto).
    unfold truthy_upd. rewrite T. reflexivity.
  - intros H F. rewrite C, (Qe H) by (each_name H; vm_compute; tauto).
    unfold email_upd. rewrite T, F. reflexivity.
  - intros H N. rewrite C, (Qn H) by (each_name H; vm_compute; tauto).
    unfold full_name_upd. rewrite T, N. reflexivity.
Qed.

Lemma conditional_pass_masks_quasi_identifiers_witness :
  get "device_id"
    [("name" : text, VStr "AXXX VXXXX");
     ("email" : text, VStr "asXXX@mail.com");
     ("device_id" : text, VStr "123XXX678");
     ("ip" : text, VStr "[REDACTED_PII]")]
  = Some (VStr (obfuscate_device_identifier (str (VInt 12345678)))).
Proof.
  destruct (conditional_pass_masks_quasi_identifiers quasi_record
              [("name" : text, VStr "AXXX VXXXX");
               ("email" : text, VStr "asXXX@mail.com");
               ("device_id" : text, VStr "123XXX678");
               ("ip" : text, VStr "[REDACTED_PII]")]
              "device_id" (VInt 12345678))
    as [_ [_ [Device _]]].
  - apply wf_check. vm_compute. reflexivity.
  - vm_compute. lia.
  - vm_compute. reflexivity.
  - vm_compute. reflexivity.
  - reflexivity.
  - apply Device. vm_compute. tauto.
Defined.

(** X16.  When the conditional pass runs and both the first_name and the
    last_name field hold non-empty text, each is replaced by its first
    character followed by one [X] for every other character, spaces
    included; a first_name field without a truthy last_name field is left as
    it is. *)
Theorem name_pair_masked_together
  (r r' : record) (c c' : ascii) (t t' : text) :
  wf_record r -> 2 <= count_combinatorial_elements r ->
  apply_redaction_rules r true = Ok r' ->
  get GIVEN_NAME_FIELD r = Some (VStr (c :: t)) ->
  (get SURNAME_FIELD r = Some (VStr (c' :: t')) ->
   get GIVEN_NAME_FIELD r' = Some (VStr (c :: xs (length t)))
   /\ get SURNAME_FIELD r' = Some (VStr (c' :: xs (length t'))))
  /\ (present SURNAME_FIELD r = false ->
      get GIVEN_NAME_FIELD r' = Some (VStr (c :: t))).
Proof.
  intros W S A G. split.
  - intros G'.
    assert (P : pair_present r = true).
    { unfold pair_present, present. rewrite G, G'. reflexivity. }
    rewrite (conditional_value r r' GIVEN_NAME_FIELD _ W S A G)
      by (vm_compute; tauto).
    rewrite (conditional_value r r' SURNAME_FIELD _ W S A G')
      by (vm_compute; tauto).
    rewrite P. split; reflexivity.
  - intros N.
    assert (P : pair_present r = false).
    { unfold pair_present. rewrite N. apply andb_false_r. }
    rewrite (conditional_value r r' GIVEN_NAME_FIELD _ W S A G)
      by (vm_compute; tauto).
    rewrite P. reflexivity.
Qed.

Lemma name_pair_masked_together_witness :
  get GIVEN_NAME_FIELD
    [("first_name" : text, VStr "AXXXXXXXX"); ("last_name" : text, VStr "V");
     ("email" : text, VStr "asXXX@mail.com")]
  = Some (VStr ("A"%char :: xs (length ("sha Rani" : text))))
  /\ get SURNAME_FIELD
       [("first_name" : text, VStr "AXXXXXXXX"); ("last_name" : text, VStr "V");
        ("email" : text, VStr "asXXX@mail.com")]
     = Some (VStr ("V"%char :: xs (length ([] : text)))).
Proof.
  destruct (name_pair_masked_together pair_record
              [("first_name" : text, VStr "AXXXXXXXX");
               ("last_name" : text, VStr "V");
               ("email" : text, VStr "asXXX@mail.com")]
              "A" "V" "sha Rani" [])
    as [Both _].
  - apply wf_check. vm_compute. reflexivity.
  - vm_compute. lia.
  - vm_compute. reflexivity.
  - vm_compute. reflexivity.
  - apply Both. vm_compute. reflexivity.
Defined.

(* ================================================================== *)
(** ** Bounds on the address mask; handles and emails always have an at sign *)

(** X17.  The address mask returns 6 characters for an input shorter than 3
    characters, 9 characters for a longer input without a postal code and 17
    characters for an input with one; it is never longer than that, however
    long the address. *)
Theorem address_mask_length (s : text) :
  length (obfuscate_physical_address s)
  = (if 3 <=? length s then 9 else 6)
    + (match group0 postal_code_pattern s with Some _ => 8 | None => 0 end)
  /\ (length s < 3 -> length (obfuscate_physical_address s) = 6)
  /\ length (obfuscate_physical_address s) <= 17.
Proof.
  assert (E : length (obfuscate_physical_address s)
              = (if 3 <=? length s then 9 else 6)
                + (match group0 postal_code_pattern s with
                   | Some _ => 8 | None => 0 end)).
  { unfold obfuscate_physical_address.
    destruct (group0 postal_code_pattern s) as [code|] eqn:G.
    - assert (L : length code = 6).
      { unfold group0 in G.
        destruct (search postal_code_pattern s) as [[j m]|] eqn:S;
          [|discriminate].
        simpl in G. inversion G; subst m.
        apply search_postal_some in S.
        destruct S as [pre [post [_ [[L _] _]]]]. exact L. }
      destruct code as [|c code']; [discriminate|].
      destruct (3 <=? length s) eqn:T.
      + apply Nat.leb_le in T.
        rewrite !length_app, firstn_length_le by lia.
        change (length (", " ++ c :: code')) with (2 + length (c :: code')).
        rewrite L. reflexivity.
      + rewrite !length_app.
        change (length (", " ++ c :: code')) with (2 + length (c :: code')).
        rewrite L. reflexivity.
    - destruct (3 <=? length s) eqn:T.
      + apply Nat.leb_le in T.
        rewrite !length_app, firstn_length_le by lia. reflexivity.
      + reflexivity. }
  split; [exact E|]. split.
  - intros L. rewrite E.
    assert (T : (3 <=? length s) = false) by (apply Nat.leb_gt; lia).
    rewrite T.
    destruct (group0 postal_code_pattern s) as [code|] eqn:G; [|reflexivity].
    exfalso. unfold group0 in G.
    destruct (search postal_code_pattern s) as [[j m]|] eqn:S;
      [|discriminate].
    apply search_postal_some in S.
    destruct S as [pre [post [Es [[Lc _] _]]]].
    subst s. rewrite !length_app in L. lia.
  - rewrite E. destruct (3 <=? length s), (group0 postal_code_pattern s);
      simpl; lia.
Qed.

Lemma try_down_some (f : nat -> option nat) (lo : nat) :
  forall k n,
    try_down f lo k = Some n ->
    exists j m, j <= k /\ f j = Some m /\ n = j + m.
Proof.
  induction k as [|k IH]; intros n H; rewrite try_down_eq in H.
  - destruct (0 <? lo); [discriminate|].
    destruct (f 0) as [m|] eqn:F; [|discriminate].
    inversion H. exists 0, m. auto.
  - destruct (S k <? lo); [discriminate|].
    destruct (f (S k)) as [m|] eqn:F.
    + inversion H. exists (S k), m. auto.
    + apply IH in H. destruct H as [j [m [L [Fj E]]]].
      exists j, m. auto.
Qed.

(** A pattern that goes on with a literal character matches only where the
    text goes on with that character. *)
Lemma match_here_lit (c : ascii) (re : regex) (prev : option ascii) (s : text)
  (n : nat) :
  match_here (lit c :: re) prev s = Some n -> exists t, s = c :: t.
Proof.
  unfold lit, exactly. cbn [match_here].
  rewrite try_down_exact by apply run_length_le.
  destruct (run_length (Ascii.eqb c) (Some 1) s =? 1) eqn:R; [|discriminate].
  intros _. apply Nat.eqb_eq in R. apply run_length_full in R.
  destruct R as [L R]. destruct s as [|x t]; [simpl in L; lia|].
  simpl in R. rewrite andb_true_r in R. apply Ascii.eqb_eq in R.
  subst x. eauto.
Qed.

Lemma in_skipn (x : ascii) (n : nat) (s : text) :
  In x (skipn n s) -> In x s.
Proof.
  revert s. induction n as [|n IH]; intros [|c t]; simpl; auto.
Qed.

(** A class repeated and then a literal: the literal occurs in the text. *)
Lemma match_here_rep_lit (p : ascii -> bool) (lo : nat) (hi : option nat)
  (c : ascii) (re : regex) (prev : option ascii) (s : text) (n : nat) :
  match_here (Rep p lo hi :: lit c :: re) prev s = Some n -> In c s.
Proof.
  cbn [match_here]. intros H. apply try_down_some in H.
  destruct H as [j [m [_ [F _]]]].
  change (match_here (lit c :: re) (prev_at prev s j) (skipn j s) = Some m)
    in F.
  apply match_here_lit in F. destruct F as [t E].
  apply (in_skipn c j). rewrite E. simpl. auto.
Qed.

Lemma found_in (re : regex) (s : text) (c : ascii) :
  (forall prev s' n, match_here re prev s' = Some n -> In c s') ->
  found re s = true -> In c s.
Proof.
  intros M. unfold found.
  destruct (search re s) as [[j m]|] eqn:E; [|discriminate].
  intros _. apply search_some in E. destruct E as [n [_ [H _]]].
  unfold match_at in H. apply M in H. apply (in_skipn c j). exact H.
Qed.

Lemma match_here_bnd (re : regex) (prev : option ascii) (s : text) :
  match_here (Bnd :: re) prev s
  = if at_boundary prev s then match_here re prev s else None.
Proof. reflexivity. Qed.

Lemma found_handle_has_at (s : text) :
  found upi_pattern s = true -> In "@"%char s.
Proof.
  apply found_in. intros prev s' n. unfold upi_pattern, at_least.
  rewrite match_here_bnd. destruct (at_boundary prev s'); [|discriminate].
  apply match_here_rep_lit.
Qed.

Lemma found_email_has_at (s : text) :
  found email_pattern s = true -> In "@"%char s.
Proof.
  apply found_in. intros prev s' n. unfold email_pattern, at_least.
  apply match_here_rep_lit.
Qed.

(** X18.  A text in which the payment-handle pattern or the email pattern is
    found has an at sign, so where [apply_redaction_rules] calls the
    payment-handle mask or the email mask, which it does only after finding
    the pattern, the mask rewrites the local part: the sentinel of the
    handle mask and the unchanged return of the email mask are not
    reached. *)
Theorem handle_and_email_fallbacks_not_reached (s : text) :
  (found upi_pattern s = true ->
   exists local_part domain_part,
     s = local_part ++ "@" ++ domain_part /\ ~ In "@"%char local_part
     /\ obfuscate_upi_identifier s
        = masked_local local_part ++ "@" ++ domain_part
     /\ obfuscate_upi_identifier s <> REDACTED_PII)
  /\ (found email_pattern s = true ->
      exists local_part domain_part,
        s = local_part ++ "@" ++ domain_part /\ ~ In "@"%char local_part
        /\ obfuscate_email_address s
           = masked_local local_part ++ "@" ++ domain_part).
Proof.
  split; intros F.
  - apply found_handle_has_at in F. apply first_occurrence in F.
    destruct F as [a [b [E N]]]. exists a, b.
    assert (M : obfuscate_upi_identifier s = masked_local a ++ "@" ++ b).
    { unfold obfuscate_upi_identifier. subst s.
      rewrite (split_once_first "@" a b N). reflexivity. }
    repeat split; auto. rewrite M. intros C.
    assert (I : In "@"%char (masked_local a ++ "@" ++ b)).
    { apply in_or_app. right. simpl. auto. }
    rewrite C in I. vm_compute in I. intuition discriminate.
  - apply found_email_has_at in F. apply first_occurrence in F.
    destruct F as [a [b [E N]]]. exists a, b.
    repeat split; auto.
    unfold obfuscate_email_address. subst s.
    rewrite (split_once_first "@" a b N). reflexivity.
Qed.

(* ================================================================== *)
(** ** More fields never clear a verdict *)

Lemma extends_app (r e : record) : extends r (r ++ e).
Proof.
  unfold extends. induction r as [|[k v] r IH]; simpl; intros f x H;
    [discriminate|].
  destruct (text_eqb f k); auto.
Qed.

Section Monotone.

Variables r r' : record.
Hypothesis more : extends r r'.

Lemma present_mono (f : text) : present f r = true -> present f r' = true.
Proof.
  unfold present. destruct (get f r) as [x|] eqn:G; [|discriminate].
  rewrite (more f x G). auto.
Qed.

Lemma contains_mono (f : text) : contains f r = true -> contains f r' = true.
Proof.
  unfold contains. destruct (get f r) as [x|] eqn:G; [|discriminate].
  rewrite (more f x G). auto.
Qed.

Lemma existsb_mono (f g : text -> bool) (l : list text) :
  (forall x, f x = true -> g x = true) ->
  existsb f l = true -> existsb g l = true.
Proof.
  intros H E. apply existsb_exists in E. destruct E as [x [Hin Hx]].
  apply existsb_exists. exists x. auto.
Qed.

Lemma has_complete_name_mono :
  has_complete_name r = true -> has_complete_name r' = true.
Proof.
  unfold has_complete_name, FULL_NAME_FIELDS. cbn [existsb flat_map].
  intros H. apply orb_true_iff in H. apply orb_true_iff.
  destruct H as [H|H].
  - left. unfold present in *.
    destruct (get "name" r) as [x|] eqn:G; [|discriminate].
    rewrite (more _ x G). exact H.
  - right. repeat (apply andb_prop in H; destruct H as [H ?]).
    repeat (apply andb_true_intro; split);
      auto using present_mono, contains_mono.
Qed.

Lemma has_email_address_mono :
  has_email_address r = true -> has_email_address r' = true.
Proof.
  unfold has_email_address. apply existsb_mono. intros f.
  destruct (get f r) as [x|] eqn:G; [|discriminate].
  rewrite (more f x G). auto.
Qed.

Lemma get_text_mono (f : text) :
  nonempty (strip (get_text f r)) = true ->
  nonempty (strip (get_text f r')) = true.
Proof.
  unfold get_text. destruct (get f r) as [x|] eqn:G; [|discriminate].
  rewrite (more f x G). auto.
Qed.

Lemma contains_complete_address_mono :
  contains_complete_address r = true -> contains_complete_address r' = true.
Proof.
  unfold contains_complete_address, LOCATION_FIELDS. cbn [fold_left].
  destruct (get "address" r) as [x|] eqn:G; [|discriminate].
  rewrite (more _ x G). intros H.
  apply andb_prop in H. destruct H as [H1 H2]. rewrite H1. cbn [andb].
  apply orb_true_iff in H2. destruct H2 as [H2|H2];
    [|rewrite H2; apply orb_true_r].
  apply orb_true_iff in H2. destruct H2 as [H2|H2];
    [|rewrite (get_text_mono _ H2); rewrite ?orb_true_r; reflexivity].
  apply orb_true_iff in H2. destruct H2 as [H2|H2];
    rewrite (get_text_mono _ H2); rewrite ?orb_true_r; reflexivity.
Qed.

Lemma has_user_context_mono :
  has_user_context r = true -> has_user_context r' = true.
Proof.
  unfold has_user_context. intros H.
  apply orb_true_iff in H. destruct H as [H|H].
  - apply orb_true_iff in H. destruct H as [H|H].
    + rewrite (has_complete_name_mono H). reflexivity.
    + rewrite (has_email_address_mono H). apply orb_true_iff. left.
      apply orb_true_r.
  - apply orb_true_iff. right. revert H. apply existsb_mono.
    apply contains_mono.
Qed.

Lemma count_if_mono (b b' : bool) (n n' : nat) :
  (b = true -> b' = true) -> n <= n' -> count_if b n <= count_if b' n'.
Proof.
  unfold count_if. destruct b, b'; intros H L; try lia;
    specialize (H eq_refl); discriminate.
Qed.

Lemma score_mono :
  count_combinatorial_elements r <= count_combinatorial_elements r'.
Proof.
  unfold count_combinatorial_elements.
  repeat apply count_if_mono; try lia.
  - intros H. apply andb_prop in H. destruct H as [H1 H2].
    apply andb_true_intro. split; [|apply has_user_context_mono; exact H2].
    revert H1. unfold has_ip_address. apply existsb_mono. apply present_mono.
  - intros H. apply andb_prop in H. destruct H as [H1 H2].
    apply andb_true_intro. split; [|apply has_user_context_mono; exact H2].
    revert H1. unfold has_device_id. apply existsb_mono. apply present_mono.
  - apply contains_complete_address_mono.
  - apply has_email_address_mono.
  - apply has_complete_name_mono.
Qed.

End Monotone.

(** X19.  Adding a field under a new name to a dict never lowers its
    combinatorial score and never clears its verdict. *)
Theorem more_fields_keep_the_verdict (r : record) (k : text) (v : value) :
  ~ In k (keys r) ->
  wf_record r ->
  wf_record (r ++ [(k, v)])
  /\ count_combinatorial_elements r
     <= count_combinatorial_elements (r ++ [(k, v)])
  /\ (is_sensitive_record r = true ->
      is_sensitive_record (r ++ [(k, v)]) = true).
Proof.
  intros N W.
  pose proof (score_mono r (r ++ [(k, v)]) (extends_app r [(k, v)])) as S.
  split; [|split; [exact S|]].
  - unfold wf_record, keys in *. rewrite map_app. simpl.
    apply NoDup_app; [exact W| constructor; [simpl; tauto|constructor] |].
    intros x Hx [E|[]]. subst x. exact (N Hx).
  - unfold is_sensitive_record. intros H.
    apply orb_true_iff in H. apply orb_true_iff. destruct H as [H|H].
    + left. unfold contains_individual_pii, any_field in *.
      rewrite !existsb_app.
      repeat (apply orb_true_iff in H; destruct H as [H|H]);
        rewrite H; rewrite ?orb_true_r; reflexivity.
    + right. apply Nat.leb_le in H. apply Nat.leb_le. lia.
Qed.

Lemma more_fields_keep_the_verdict_witness :
  wf_record (name_email_record ++ [("note" : text, VNull)])
  /\ count_combinatorial_elements name_email_record
     <= count_combinatorial_elements
          (name_email_record ++ [("note" : text, VNull)])
  /\ (is_sensitive_record name_email_record = true ->
      is_sensitive_record (name_email_record ++ [("note" : text, VNull)])
      = true).
Proof.
  apply (more_fields_keep_the_verdict name_email_record "note" VNull).
  - vm_compute. intuition discriminate.
  - apply wf_check. vm_compute. reflexivity.
Defined.

(* ================================================================== *)
(** ** When the redaction returns *)

Lemma text_pair_not_raising (r : record) :
  wf_record r ->
  (forall k v, In (k, v) r -> v = VNull \/ exists s, v = VStr s) ->
  pair_not_text r = false.
Proof.
  intros W T. unfold pair_not_text, pair_present, pair_is_text, present.
  destruct (get GIVEN_NAME_FIELD r) as [vg|] eqn:G; [|reflexivity].
  destruct (get SURNAME_FIELD r) as [vs|] eqn:S;
    [|rewrite andb_false_r; reflexivity].
  apply get_in in G. apply get_in in S.
  destruct (T _ _ G) as [Eg|[sg Eg]], (T _ _ S) as [Es|[ss Es]]; subst;
    simpl; rewrite ?andb_false_r; reflexivity.
Qed.

(** X20.  On a dict, [apply_redaction_rules] with the flag false always
    returns a record, and a dict whose values are all text or null is always
    processed: the row gets a redacted record and a verdict. *)
Theorem text_records_are_always_processed (r : record) :
  wf_record r ->
  (forall k v, In (k, v) r -> v = VNull \/ exists s, v = VStr s) ->
  (exists r', apply_redaction_rules r false = Ok r')
  /\ (exists r', apply_redaction_rules r true = Ok r')
  /\ exists r', process_record r = Ok (r', is_sensitive_record r).
Proof.
  intros W T. pose proof (text_pair_not_raising r W T) as P.
  assert (A : forall b, exists r', apply_redaction_rules r b = Ok r').
  { intros b. apply apply_redaction_rules_returns; [exact W|].
    rewrite P. apply andb_false_r. }
  split; [apply A|]. split; [apply A|].
  destruct (A (is_sensitive_record r)) as [r' E]. exists r'.
  unfold process_record. rewrite E. reflexivity.
Qed.

Lemma text_records_are_always_processed_witness :
  (exists r', apply_redaction_rules name_email_record false = Ok r')
  /\ (exists r', apply_redaction_rules name_email_record true = Ok r')
  /\ exists r',
       process_record name_email_record
       = Ok (r', is_sensitive_record name_email_record).
Proof.
  apply (text_records_are_always_processed name_email_record).
  - apply wf_check. vm_compute. reflexivity.
  - intros k v H. vm_compute in H.
    repeat (destruct H as [H|H]; [inversion H; subst; right; eauto|]).
    destruct H.
Defined.

(* ================================================================== *)
(** ** Instances of the shape theorems *)

Lemma device_mask_shape_witness :
  length (obfuscate_device_identifier "ABCDEF123456") = 9
  /\ firstn 3 (obfuscate_device_identifier "ABCDEF123456")
     = firstn 3 ("ABCDEF123456" : text)
  /\ skipn 6 (obfuscate_device_identifier "ABCDEF123456")
     = skipn (length ("ABCDEF123456" : text) - 3) ("ABCDEF123456" : text).
Proof.
  destruct (device_mask_shape "ABCDEF123456") as [L E].
  split; [exact L|]. apply E. vm_compute. lia.
Defined.

Lemma address_mask_length_witness :
  length (obfuscate_physical_address "ab") = 6.
Proof.
  destruct (address_mask_length "ab") as [_ [Short _]].
  apply Short. vm_compute. lia.
Defined.

Lemma handle_and_email_fallbacks_not_reached_witness :
  exists local_part domain_part,
    ("pay asha@okaxis" : text) = local_part ++ "@" ++ domain_part
    /\ ~ In "@"%char local_part
    /\ obfuscate_upi_identifier "pay asha@okaxis"
       = masked_local local_part ++ "@" ++ domain_part
    /\ obfuscate_upi_identifier "pay asha@okaxis" <> REDACTED_PII.
Proof.
  destruct (handle_and_email_fallbacks_not_reached "pay asha@okaxis")
    as [Handle _].
  apply Handle. vm_compute. reflexivity.
Defined.

(* ================================================================== *)
(** ** Passport numbers *)

Lemma match_here_passport_eq (prev : option ascii) (s : text) :
  match_here passport_pattern prev s
  = if at_boundary prev s
       && (run_length is_upper (Some 1) s =? 1)
       && (run_length is_digit (Some 7) (skipn 1 s) =? 7)
       && at_boundary (prev_at (prev_at prev s 1) (skipn 1 s) 7)
            (skipn 7 (skipn 1 s))
    then Some 8 else None.
Proof.
  unfold passport_pattern, exactly. cbn [match_here].
  destruct (at_boundary prev s); [|reflexivity].
  rewrite try_down_exact by apply run_length_le.
  destruct (run_length is_upper (Some 1) s =? 1); [|reflexivity].
  rewrite try_down_exact by apply run_length_le.
  destruct (run_length is_digit (Some 7) (skipn 1 s) =? 7); [|reflexivity].
  destruct (at_boundary _ _); reflexivity.
Qed.

Lemma upper_is_word (c : ascii) : is_upper c = true -> is_word c = true.
Proof.
  intros H. unfold is_word, is_alnum, is_alpha. rewrite H. reflexivity.
Qed.

(** The passport pattern matches only where an uppercase letter stands. *)
Lemma match_here_passport_upper (prev : option ascii) (s : text) (n : nat) :
  match_here passport_pattern prev s = Some n ->
  exists c t, s = c :: t /\ is_upper c = true.
Proof.
  rewrite match_here_passport_eq.
  destruct (run_length is_upper (Some 1) s =? 1) eqn:R;
    [|rewrite andb_false_r; discriminate].
  intros _. apply Nat.eqb_eq in R. apply run_length_full in R.
  destruct R as [L R]. destruct s as [|c t]; [simpl in L; lia|].
  simpl in R. rewrite andb_true_r in R. eauto.
Qed.

(** X21.  A text that is one uppercase letter followed by 7 digits is
    masked by the passport mask to that letter and seven [X]; in a text
    without any uppercase letter the passport pattern is not found and the
    mask returns the text unchanged. *)
Theorem passport_mask_needs_uppercase (c : ascii) (ds s : text) :
  is_upper c = true -> forallb is_digit ds = true -> length ds = 7 ->
  forallb (fun x => negb (is_upper x)) s = true ->
  obfuscate_passport_number (c :: ds) = c :: "XXXXXXX"
  /\ found passport_pattern s = false
  /\ obfuscate_passport_number s = s.
Proof.
  intros U D L N. split; [|split].
  - assert (M : match_at passport_pattern (c :: ds) 0 = Some 8).
    { unfold match_at. cbn [prev_at skipn]. rewrite match_here_passport_eq.
      assert (B1 : at_boundary None (c :: ds) = true).
      { unfold at_boundary. simpl. apply upper_is_word. exact U. }
      assert (R1 : run_length is_upper (Some 1) (c :: ds) = 1).
      { apply run_length_full. simpl. rewrite U. split; [lia|reflexivity]. }
      assert (R7 : run_length is_digit (Some 7) (skipn 1 (c :: ds)) = 7).
      { apply run_length_full. simpl skipn. split; [lia|].
        rewrite firstn_all2 by lia. exact D. }
      assert (B2 : at_boundary
                     (prev_at (prev_at None (c :: ds) 1) (skipn 1 (c :: ds)) 7)
                     (skipn 7 (skipn 1 (c :: ds))) = true).
      { change (skipn 1 (c :: ds)) with ds.
        rewrite skipn_all2 by lia. unfold prev_at.
        destruct (nth_error ds 6) as [x|] eqn:E.
        - unfold at_boundary. simpl.
          rewrite digit_is_word; [reflexivity|].
          rewrite forallb_forall in D. apply D. apply (nth_error_In _ _ E).
        - apply nth_error_None in E. lia. }
      rewrite B1, R1, R7, B2. reflexivity. }
    unfold obfuscate_passport_number, group0.
    rewrite (search_least passport_pattern (c :: ds) 0 8)
      by (simpl; try lia; try exact M; intros j' Hj; lia).
    cbn [option_map snd skipn]. rewrite firstn_all2 by (simpl; lia).
    rewrite replace_whole by discriminate. reflexivity.
  - apply found_nowhere. intros j _.
    destruct (match_at passport_pattern s j) as [n|] eqn:E; auto.
    unfold match_at in E. apply match_here_passport_upper in E.
    destruct E as [x [t [Es Ux]]].
    assert (I : In x s) by (apply (in_skipn x j); rewrite Es; simpl; auto).
    rewrite forallb_forall in N. apply N in I. rewrite Ux in I. discriminate.
  - unfold obfuscate_passport_number, group0.
    destruct (search passport_pattern s) as [[j m]|] eqn:E; [|reflexivity].
    exfalso. apply search_some in E. destruct E as [n [_ [M _]]].
    unfold match_at in M. apply match_here_passport_upper in M.
    destruct M as [x [t [Es Ux]]].
    assert (I : In x s) by (apply (in_skipn x j); rewrite Es; simpl; auto).
    rewrite forallb_forall in N. apply N in I. rewrite Ux in I. discriminate.
Qed.

Lemma passport_mask_needs_uppercase_witness :
  obfuscate_passport_number ("P"%char :: "1234567") = "P"%char :: "XXXXXXX"
  /\ found passport_pattern "p1234567" = false
  /\ obfuscate_passport_number "p1234567" = ("p1234567" : text).
Proof.
  apply (passport_mask_needs_uppercase "P" "1234567" "p1234567");
    vm_compute; reflexivity.
Defined.
